(** * home-podcast: the watch-debounce-refresh engine

    A shallow embedding of the Go packages [internal/auth] (TokenStore),
    [internal/library] (Library), [internal/metadata] (BuildEpisode) and
    [internal/models] (Episode), with the parts of the Go standard library
    they rely on ([strings.TrimSpace], [strings.Split], [strings.ToLower],
    [strings.EqualFold], [filepath.Ext], [filepath.WalkDir],
    [sort.SliceStable], [time.Time.Round], [math.Round]).

    Go strings are byte strings: a Rocq [string] is a sequence of 8-bit
    [ascii] characters, and the string functions work on its bytes as
    [list N]. *)

From Stdlib Require Import ZArith List Ascii String Floats Sorted Permutation Lia.
From stdpp Require Import base gmap sets strings.

Open Scope Z_scope.
#[local] Set Warnings "-register-all".

(* ================================================================== *)
(** ** Go strings as bytes *)

Definition bytes_of (s : string) : list N := map N_of_ascii (list_ascii_of_string s).
Definition string_of_bytes (b : list N) : string :=
  string_of_list_ascii (map ascii_of_N b).

(** [utf8.RuneSelf]: bytes at or above it start or continue a multi-byte rune. *)
Definition RuneSelf : N := 128.

Definition is_ascii (s : string) : bool :=
  forallb (fun c => N.ltb c RuneSelf) (bytes_of s).

(** [unicode.IsSpace]: the ASCII white space and, in UTF-8, U+0085, U+00A0,
    U+1680, U+2000..U+200A, U+2028, U+2029, U+202F, U+205F, U+3000. *)
Definition ascii_space (c : N) : bool :=
  match c with 9%N | 10%N | 11%N | 12%N | 13%N | 32%N => true | _ => false end.

Definition multibyte_spaces : list (list N) :=
  [[0xC2; 0x85]; [0xC2; 0xA0]; [0xE1; 0x9A; 0x80]]%N ++
  map (fun k => [0xE2; 0x80; 0x80 + k]%N) (map N.of_nat (seq 0 11)) ++
  [[0xE2; 0x80; 0xA8]; [0xE2; 0x80; 0xA9]; [0xE2; 0x80; 0xAF];
   [0xE2; 0x81; 0x9F]; [0xE3; 0x80; 0x80]]%N.

Fixpoint is_prefix (p s : list N) : bool :=
  match p, s with
  | [], _ => true
  | x :: p', y :: s' => N.eqb x y && is_prefix p' s'
  | _ :: _, [] => false
  end.

(** Width of the space rune [utf8.DecodeRuneInString] finds at the front of
    [s], if that rune satisfies [unicode.IsSpace]. *)
Definition space_rune_prefix (s : list N) : option nat :=
  match s with
  | c :: _ =>
      if ascii_space c then Some 1%nat
      else match List.find (fun p => is_prefix p s) multibyte_spaces with
           | Some p => Some (List.length p)
           | None => None
           end
  | [] => None
  end.

(** Width of the space rune [utf8.DecodeLastRuneInString] finds at the end
    of [s]: the encodings start with a lead byte, so a space rune ends [s]
    exactly when its encoding is a suffix of [s]. *)
Definition space_rune_suffix (s : list N) : option nat :=
  match rev s with
  | c :: _ =>
      if ascii_space c then Some 1%nat
      else match List.find (fun p => is_prefix (rev p) (rev s)) multibyte_spaces with
           | Some p => Some (List.length p)
           | None => None
           end
  | [] => None
  end.

(** [strings.TrimLeftFunc(s, unicode.IsSpace)]; the fuel is the length. *)
Fixpoint trim_left_space (fuel : nat) (s : list N) : list N :=
  match fuel with
  | O => s
  | S f => match space_rune_prefix s with
           | Some w => trim_left_space f (drop w s)
           | None => s
           end
  end.

(** [strings.TrimRightFunc(s, unicode.IsSpace)]. *)
Fixpoint trim_right_space (fuel : nat) (s : list N) : list N :=
  match fuel with
  | O => s
  | S f => match space_rune_suffix s with
           | Some w => trim_right_space f (take (List.length s - w) s)
           | None => s
           end
  end.

(** [strings.TrimSpace]: its ASCII fast path computes the same slice as the
    general [TrimFunc(s, unicode.IsSpace)] it falls back to. *)
Definition TrimSpace (s : string) : string :=
  let b := bytes_of s in
  let l := trim_left_space (List.length b) b in
  string_of_bytes (trim_right_space (List.length l) l).

(** [strings.Split(s, "\n")]: n separators give n+1 pieces. *)
Fixpoint split_nl (s : list N) : list (list N) :=
  match s with
  | [] => [[]]
  | c :: r =>
      if N.eqb c 10 then [] :: split_nl r
      else match split_nl r with
           | p :: ps => (c :: p) :: ps
           | [] => [[c]]
           end
  end.

Definition Split_lines (s : string) : list string :=
  map string_of_bytes (split_nl (bytes_of s)).

(* ================================================================== *)
(** ** Errors of the os package *)

(** The errors the file system calls return, as far as the code tells them
    apart: [errors.Is(err, os.ErrNotExist)] or not. *)
Inductive io_error :=
  | ErrNotExist
  | ErrPermission
  | ErrIO (code : Z).

Definition is_not_exist (e : io_error) : bool :=
  match e with ErrNotExist => true | _ => false end.

(* ================================================================== *)
(** ** internal/auth: TokenStore *)

Module TokenStore.

Inductive read_result :=
  | ReadOk (data : string)
  | ReadErr (e : io_error).

(** The loop of [refresh] over the lines of the file. *)
Definition parse_tokens (data : string) : gset string :=
  fold_left (fun (acc : gset string) line =>
               let token := TrimSpace line in
               if String.eqb token EmptyString then acc else {[ token ]} ∪ acc)
            (Split_lines data) ∅.

(** The state [refresh] and [IsValidToken] share: the published token set. *)
Record state := mkState { tokens : gset string }.

(** [TokenStore.refresh]: the new state and the returned error. *)
Definition refresh (rd : read_result) (s : state) : state * option io_error :=
  match rd with
  | ReadErr e =>
      if is_not_exist e then (mkState ∅, None) else (s, Some e)
  | ReadOk data => (mkState (parse_tokens data), None)
  end.

(** [TokenStore.IsValidToken]. *)
Definition IsValidToken (s : state) (token : string) : bool :=
  let token := TrimSpace token in
  if String.eqb token EmptyString then false
  else bool_decide (token ∈ tokens s).

End TokenStore.

(* ================================================================== *)
(** ** Case mapping and file names *)

(** The Unicode tables behind [strings.ToLower] and [strings.EqualFold]:
    only their non-ASCII branches consult them. *)
Class UnicodeTables := {
  (** [strings.Map(unicode.ToLower, s)], taken for a non-ASCII [s]. *)
  unicode_to_lower : string -> string;
  (** The rune loop of [strings.EqualFold] ([hasUnicode:]), entered at the
      first position where either string has a non-ASCII byte. *)
  unicode_equal_fold : string -> string -> bool
}.

Section Names.
Context `{UnicodeTables}.

Definition ascii_lower_byte (c : N) : N :=
  if (65 <=? c)%N && (c <=? 90)%N then (c + 32)%N else c.

(** [strings.ToLower]: the ASCII fast path, else the Unicode mapping. *)
Definition ToLower (s : string) : string :=
  if is_ascii s then string_of_bytes (map ascii_lower_byte (bytes_of s))
  else unicode_to_lower s.

(** The byte loop of [strings.EqualFold]. *)
Fixpoint equal_fold_bytes (s t : list N) : bool :=
  match s, t with
  | sr :: s', tr :: t' =>
      if (RuneSelf <=? N.lor sr tr)%N then
        unicode_equal_fold (string_of_bytes s) (string_of_bytes t)
      else if N.eqb tr sr then equal_fold_bytes s' t'
      else
        let '(sr, tr) := if (tr <? sr)%N then (tr, sr) else (sr, tr) in
        if (65 <=? sr)%N && (sr <=? 90)%N && N.eqb tr (sr + 32)%N
        then equal_fold_bytes s' t'
        else false
  | [], [] => true
  | _, _ => false
  end.

Definition EqualFold (s t : string) : bool :=
  equal_fold_bytes (bytes_of s) (bytes_of t).

End Names.

(** The byte ['/'], [os.PathSeparator] on Unix. *)
Definition slash : N := 47.
Definition dot : N := 46.

(** [filepath.Ext]: the suffix from the last '.' of the last element. *)
Fixpoint ext_rev (r : list N) (acc : list N) : list N :=
  match r with
  | [] => []
  | c :: r' =>
      if N.eqb c slash then []
      else if N.eqb c dot then c :: acc
      else ext_rev r' (c :: acc)
  end.

Definition Ext (path : string) : string :=
  string_of_bytes (ext_rev (rev (bytes_of path)) []).

(** [filepath.Base]: the last element, trailing slashes removed; "." for
    the empty path and "/" for a path of slashes only. *)
Fixpoint drop_slashes (r : list N) : list N :=
  match r with
  | c :: r' => if N.eqb c slash then drop_slashes r' else r
  | [] => []
  end.

Fixpoint last_elem_rev (r : list N) : list N :=
  match r with
  | c :: r' => if N.eqb c slash then [] else c :: last_elem_rev r'
  | [] => []
  end.

Definition Base (path : string) : string :=
  match bytes_of path with
  | [] => "."
  | b =>
      match drop_slashes (rev b) with
      | [] => "/"
      | r => string_of_bytes (rev (last_elem_rev r))
      end
  end.

(** [filepath.Rel(root, path)] for the paths [filepath.WalkDir] produces
    under a clean [root], which are [root + "/" + rel]; [None] is Rel's
    error, for a path outside [root]. *)
Definition Rel (root path : string) : option string :=
  if String.eqb root path then Some "."
  else
    let p := bytes_of root ++ [slash] in
    if is_prefix p (bytes_of path)
    then Some (string_of_bytes (drop (List.length p) (bytes_of path)))
    else None.

(** [strings.TrimSuffix]. *)
Definition TrimSuffix (s suffix : string) : string :=
  let b := bytes_of s in
  let x := bytes_of suffix in
  if is_prefix (rev x) (rev b)
  then string_of_bytes (take (List.length b - List.length x) b)
  else s.

(* ================================================================== *)
(** ** time.Time *)

(** An instant as Unix seconds and nanoseconds in [0, 1e9), with its
    location: [utc] is set by [Time.UTC]. *)
Record time := mkTime { t_sec : Z; t_nsec : Z; t_utc : bool }.

Definition Second : Z := 1000000000.

Definition UTC (t : time) : time := mkTime (t_sec t) (t_nsec t) true.

(** [t.Add(d)] for a duration [d] in nanoseconds. *)
Definition Add (t : time) (d : Z) : time :=
  let n := t_nsec t + d in
  mkTime (t_sec t + n / Second) (n mod Second) (t_utc t).

(** [t.Round(time.Second)]: [div(t, Second)] leaves the remainder
    [r = nsec]; halfway values round up. *)
Definition Round_second (t : time) : time :=
  let r := t_nsec t in
  if r + r <? Second then Add t (- r) else Add t (Second - r).

(* ================================================================== *)
(** ** float64 arithmetic *)

(** [float64(n)] for an [int64] [n]: round to nearest, ties to even. *)
Definition float_of_int64 (n : Z) : float :=
  FloatOps.SF2Prim (SpecFloat.binary_normalize FloatOps.prec FloatOps.emax n 0 false).

(** [math.Round] of the exact value [(-1)^s * m * 2^e]: halves away from zero. *)
Definition round_half_away (s : bool) (m e : Z) : Z :=
  let v :=
    if 0 <=? e then m * 2 ^ e
    else let d := 2 ^ (- e) in
         let q := m / d in
         if d <=? 2 * (m mod d) then q + 1 else q in
  if s then - v else v.

Definition MinInt64 : Z := - 2 ^ 63.

(** [int(math.Round(x))]: [math.Round] yields the integer nearest to [x];
    the conversion to [int] keeps it when it fits in 64 bits; out of range,
    NaN and infinities convert to [MinInt64] (the amd64 conversion). *)
Definition int_of_round (x : float) : Z :=
  match FloatOps.Prim2SF x with
  | SpecFloat.S754_zero _ => 0
  | SpecFloat.S754_finite s m e =>
      let v := round_half_away s (Zpos m) e in
      if (MinInt64 <=? v) && (v <? 2 ^ 63) then v else MinInt64
  | _ => MinInt64
  end.

Definition f8 : float := float_of_int64 8.
Definition f1000 : float := float_of_int64 1000.
Definition fzero : float := float_of_int64 0.

(** The bitrate expression of [BuildEpisode]:
    [int(math.Round((float64(info.Size()) * 8) / duration / 1000))]. *)
Definition bitrate_of (size : Z) (duration : float) : Z :=
  int_of_round (PrimFloat.div (PrimFloat.div (PrimFloat.mul (float_of_int64 size) f8) duration) f1000).

(* ================================================================== *)
(** ** internal/models: Episode, and the Go heap its pointers live in *)

Definition loc := positive.

(** [models.Episode]; a pointer field is [None] for [nil]. *)
Record Episode := mkEpisode {
  ID : string;
  Filename : string;
  RelativePath : string;
  Title : string;
  Artist : option loc;            (* *string *)
  Album : option loc;             (* *string *)
  DurationSeconds : option loc;   (* *float64 *)
  BitrateKbps : option loc;       (* *int *)
  FilesizeBytes : Z;
  ModifiedAt : time
}.

(** A heap object: a string, float64 or int variable, or the backing array
    of a [[]models.Episode] slice. *)
Inductive cell :=
  | CString (v : string)
  | CFloat (v : float)
  | CInt (v : Z)
  | CEpisodes (a : list Episode).

Abbreviation heap := (gmap loc cell).

(** [&v], [make] and [append]: a new object at a location not in use. *)
Definition alloc (h : heap) (c : cell) : loc * heap :=
  let l := fresh (dom h) in (l, <[l := c]> h).

(* ================================================================== *)
(** ** internal/metadata: BuildEpisode *)

(** [os.FileInfo] as [BuildEpisode] reads it. *)
Record file_info := mkInfo { Size : Z; ModTime : time }.

(** A file as seen by [BuildEpisode]: the result of [os.Stat] ([None] when it
    fails), whether [os.Open] succeeds, what [tag.ReadFrom] finds (the raw
    title, artist and album, or [None] when it fails), and the frame
    durations [mp3.Decoder] yields before it stops, with [true] when it
    stops on [io.EOF] and [false] on a decode error. *)
Record file_data := mkFile {
  fd_stat : option file_info;
  fd_open : bool;
  fd_tags : option (string * string * string);
  fd_frames : list float;
  fd_eof : bool
}.

Inductive build_error := StatError | RelError.

(** [optionalString]: the trimmed value behind a new pointer, or nil. *)
Definition optionalString (h : heap) (value : string) : option loc * heap :=
  let value := TrimSpace value in
  if String.eqb value EmptyString then (None, h)
  else let '(l, h) := alloc h (CString value) in (Some l, h).

(** [readTags]. *)
Definition readTags (h : heap) (f : file_data) : string * option loc * option loc * heap :=
  if negb (fd_open f) then ("", None, None, h)
  else match fd_tags f with
       | None => ("", None, None, h)
       | Some (t, ar, al) =>
           let title := TrimSpace t in
           let '(artist, h) := optionalString h ar in
           let '(album, h) := optionalString h al in
           (title, artist, album, h)
       end.

(** [computeMP3Duration]: the sum of the frame durations, or an error. *)
Definition computeMP3Duration (f : file_data) : option float :=
  if negb (fd_open f) then None
  else if negb (fd_eof f) then None
  else Some (fold_left PrimFloat.add (fd_frames f) fzero).

Section Build.
Context `{UnicodeTables}.

(** [BuildEpisode(path, root)] on the file [f] found at [path]. *)
Definition BuildEpisode (path root : string) (f : file_data) (h : heap)
  : build_error + (Episode * heap) :=
  match fd_stat f with
  | None => inl StatError
  | Some info =>
      let relative := match Rel root path with Some r => r | None => Base path end in
      let '(title, artist, album, h) := readTags h f in
      let title := if String.eqb title EmptyString
                   then TrimSuffix (Base path) (Ext path) else title in
      let '(durationPtr, bitratePtr, h) :=
        if EqualFold (Ext path) ".mp3" then
          match computeMP3Duration f with
          | Some dur =>
              if PrimFloat.ltb fzero dur then
                let '(ld, h) := alloc h (CFloat dur) in
                let bitrate := bitrate_of (Size info) dur in
                if 0 <? bitrate then
                  let '(lb, h) := alloc h (CInt bitrate) in (Some ld, Some lb, h)
                else (Some ld, None, h)
              else (None, None, h)
          | None => (None, None, h)
          end
        else (None, None, h) in
      inr (mkEpisode relative (Base path) relative title artist album
                     durationPtr bitratePtr (Size info)
                     (Round_second (UTC (ModTime info))), h)
  end.

End Build.

(* ================================================================== *)
(** ** sort.SliceStable and Go string order *)

(** Go's [<] on strings: byte-wise lexicographic. *)
Fixpoint bytes_ltb (a b : list N) : bool :=
  match a, b with
  | [], [] => false
  | [], _ :: _ => true
  | _ :: _, [] => false
  | x :: a', y :: b' => if (x <? y)%N then true else if N.eqb x y then bytes_ltb a' b' else false
  end.

Definition str_ltb (s t : string) : bool := bytes_ltb (bytes_of s) (bytes_of t).

Section Sort.
Context {A : Type} (less : A -> A -> bool).

Fixpoint insert_stable (x : A) (l : list A) : list A :=
  match l with
  | [] => [x]
  | y :: l' => if less x y then x :: l else y :: insert_stable x l'
  end.

(** [sort.SliceStable]: any stable sort orders the slice as this insertion
    sort does; each element goes after the earlier ones it is not less than. *)
Definition SliceStable (l : list A) : list A :=
  fold_left (fun acc x => insert_stable x acc) l [].

End Sort.

(* ================================================================== *)
(** ** filepath.WalkDir over a directory tree *)

(** A directory entry. A directory lists its entries in the order
    [os.ReadDir] returns them (sorted by name), together with the error
    [os.ReadDir] reports after them, if any. *)
Inductive entry :=
  | FileE (name : string) (f : file_data)
  | DirE (name : string) (children : list entry) (read_err : option io_error).

Definition IsDir (d : entry) : bool := match d with DirE _ _ _ => true | _ => false end.
Definition entry_name (d : entry) : string :=
  match d with FileE n _ => n | DirE n _ _ => n end.

(** [filepath.Join(path, name)] for a clean [path]. *)
Definition Join (path name : string) : string :=
  if String.eqb path "/" then path ++ name else path ++ "/" ++ name.

(** What a [fs.WalkDirFunc] returns: nil, [filepath.SkipDir],
    [filepath.SkipAll] or an error. *)
Inductive walk_result := WalkNil | SkipDir | SkipAll | WalkErr (e : io_error).

Definition is_nil (r : walk_result) : bool := match r with WalkNil => true | _ => false end.
Definition is_skipdir (r : walk_result) : bool := match r with SkipDir => true | _ => false end.

Section Walk.
Context {S : Type} (fn : string -> option entry -> option io_error -> S -> S * walk_result).

(** [filepath.walkDir]. *)
Fixpoint walkDir (path : string) (d : entry) (st : S) {struct d} : S * walk_result :=
  let '(st, r) := fn path (Some d) None st in
  if negb (is_nil r) || negb (IsDir d) then
    (st, if is_skipdir r && IsDir d then WalkNil else r)
  else
    match d with
    | FileE _ _ => (st, WalkNil)
    | DirE _ dirs read_err =>
        let '(st, r) := match read_err with
                        | Some e => fn path (Some d) (Some e) st
                        | None => (st, WalkNil)
                        end in
        if negb (is_nil r) then (st, if is_skipdir r then WalkNil else r)
        else
          (fix loop (ds : list entry) (st : S) : S * walk_result :=
             match ds with
             | [] => (st, WalkNil)
             | d1 :: ds' =>
                 let '(st, r) := walkDir (Join path (entry_name d1)) d1 st in
                 match r with
                 | WalkNil => loop ds' st
                 | SkipDir => (st, WalkNil)
                 | _ => (st, r)
                 end
             end) dirs st
    end.

(** [filepath.WalkDir(root, fn)]; [fs] is the result of [os.Lstat(root)]. *)
Definition WalkDir (root : string) (fs : io_error + entry) (st : S) : S * walk_result :=
  let '(st, r) := match fs with
                  | inl e => fn root None (Some e) st
                  | inr d => walkDir root d st
                  end in
  match r with SkipDir | SkipAll => (st, WalkNil) | _ => (st, r) end.

End Walk.

(** Induction over directory trees, with a hypothesis for every entry of a
    directory. *)
Fixpoint entry_ind' (P : entry -> Prop)
  (Pf : forall n f, P (FileE n f))
  (Pd : forall n ds re, Forall P ds -> P (DirE n ds re)) (d : entry) : P d :=
  match d with
  | FileE n f => Pf n f
  | DirE n ds re =>
      Pd n ds re
        ((fix go (ds : list entry) : Forall P ds :=
            match ds with
            | [] => @List.Forall_nil entry P
            | x :: xs => @List.Forall_cons entry P x xs (entry_ind' P Pf Pd x) (go xs)
            end) ds)
  end.

(* ================================================================== *)
(** ** internal/library: Library *)

Module Library.
Section Library.
Context `{UnicodeTables}.

(** The fields of [Library] the catalog depends on; [episodes] is the
    published slice ([None] for the nil slice), a pointer to its backing
    array in the heap. *)
Record Library := mkLibrary {
  root : string;
  allowed : gset string;
  episodes : option loc
}.

(** [isAllowed]. *)
Definition isAllowed (l : Library) (path : string) : bool :=
  let ext := ToLower (Ext path) in
  bool_decide (ext ∈ allowed l).

(** The loop of [NewLibrary] filling [lib.allowed]. *)
Definition allowed_set (exts : list string) : gset string :=
  fold_left (fun acc ext => {[ ToLower ext ]} ∪ acc) exts ∅.

(** The comparison [refresh] hands to [sort.SliceStable]. *)
Definition episode_less (a b : Episode) : bool :=
  if String.eqb (RelativePath a) (RelativePath b)
  then str_ltb (Filename a) (Filename b)
  else str_ltb (RelativePath a) (RelativePath b).

(** The [fs.WalkDirFunc] of [refresh], threading the episodes appended so
    far and the heap. *)
Definition refresh_fn (l : Library) (path : string) (d : option entry)
  (err : option io_error) (st : list Episode * heap) : (list Episode * heap) * walk_result :=
  let '(eps, h) := st in
  match err with
  | Some _ => (st, WalkNil)
  | None =>
      match d with
      | None => (st, WalkNil)
      | Some d =>
          if IsDir d then (st, WalkNil)
          else if negb (isAllowed l path) then (st, WalkNil)
          else match d with
               | FileE _ f =>
                   match BuildEpisode path (root l) f h with
                   | inl _ => (st, WalkNil)
                   | inr (ep, h') => ((eps ++ [ep], h'), WalkNil)
                   end
               | DirE _ _ _ => (st, WalkNil)
               end
      end
  end.

(** The records the walk of [refresh] collects. *)
Definition collect (l : Library) (fs : io_error + entry) (h : heap)
  : (list Episode * heap) * walk_result :=
  WalkDir (refresh_fn l) (root l) fs ([], h).

(** [Library.refresh]: the walk's error, or the library with the sorted
    records published in a new array. *)
Definition refresh (l : Library) (fs : io_error + entry) (h : heap)
  : walk_result + (Library * heap) :=
  let '((eps, h'), r) := collect l fs h in
  if negb (is_nil r) then inl r
  else
    let eps := SliceStable episode_less eps in
    let '(a, h'') := alloc h' (CEpisodes eps) in
    inr (mkLibrary (root l) (allowed l) (Some a), h'').

(** The outcome of [NewLibrary]: the library or the error it returns,
    whether the [run] goroutine was started and whether the notifier is
    left open. *)
Inductive ctor_error := NotifierError (e : io_error) | RefreshError (r : walk_result).

Record construction := mkConstruction {
  c_lib : option Library;
  c_heap : heap;
  c_err : option ctor_error;
  c_run_started : bool;
  c_watcher_open : bool
}.

(** [NewLibrary(root, allowed, ...)]: [notifier] is the error of
    [fsnotify.NewWatcher], [fs] the root as [os.Lstat] finds it.
    [addWatchRecursive] only registers watches and logs its failures. *)
Definition NewLibrary (notifier : option io_error) (root : string)
  (exts : list string) (fs : io_error + entry) (h : heap) : construction :=
  match notifier with
  | Some e => mkConstruction None h (Some (NotifierError e)) false false
  | None =>
      let lib := mkLibrary root (allowed_set exts) None in
      match refresh lib fs h with
      | inl r => mkConstruction None h (Some (RefreshError r)) false false
      | inr (lib, h') => mkConstruction (Some lib) h' None true true
      end
  end.

(** [ListEpisodes]: [make] a new array of the same length and [copy] the
    records into it. *)
Definition ListEpisodes (l : Library) (h : heap) : loc * heap :=
  let src := match episodes l with
             | Some a => match h !! a with Some (CEpisodes xs) => xs | _ => [] end
             | None => []
             end in
  alloc h (CEpisodes src).

(** [fsnotify.Op] bits. *)
Definition Create : Z := 1.
Definition Write : Z := 2.
Definition Remove : Z := 4.
Definition Rename : Z := 8.
Definition Chmod : Z := 16.

Record Event := mkEvent { Name : string; Op : Z }.

(** [handleEvent]: whether it registers watches under a new directory
    ([is_dir] is what [os.Stat(event.Name)] reports) and whether it calls
    [scheduleRefresh]. *)
Definition handleEvent (l : Library) (ev : Event) (is_dir : bool) : bool * bool :=
  let add_watch := Z.eqb (Z.land (Op ev) Create) Create && is_dir in
  let schedule :=
    negb (Z.eqb (Z.land (Op ev) (Z.lor (Z.lor Create Write) (Z.lor Remove Rename))) 0)
    && (isAllowed l (Name ev) || negb (Z.eqb (Z.land (Op ev) (Z.lor Remove Rename)) 0)) in
  (add_watch, schedule).

End Library.
End Library.

(* ================================================================== *)
(** ** The debounce scheduler and Close, as interleaved steps *)

(** The goroutines that touch [refreshTimer]: the [run] loop (which calls
    [handleEvent] and so [scheduleRefresh]), the caller of [Close], and one
    [time.AfterFunc] callback per armed timer. Each step is one atomic
    action of the Go code; any interleaving of enabled steps may happen.
    [Library] and [TokenStore] differ only in how the timer callback clears
    [refreshTimer]. *)
Module Scheduler.

Inductive variant := LibraryV | TokenStoreV.

(** Where the [run] goroutine is: in its [select], inside
    [scheduleRefresh] before the [done] check, before [refreshMu.Lock()],
    holding the lock before arming, or returned. *)
Inductive run_pc := RSelect | RCheckDone | RLock | RArm | RExited.

(** Where the caller of [Close] is: not yet called, before
    [refreshMu.Lock()], holding it, before [watcher.Close()], in
    [wg.Wait()], returned. *)
Inductive close_pc := CIdle | CLock | CStop | CWatcher | CWait | CReturned.

(** A timer made by [time.AfterFunc]: armed, stopped before firing, its
    callback having run [refresh] and waiting for [refreshMu], holding
    [refreshMu], finished. *)
Inductive timer := TArmed | TStopped | TRefreshed | TLocked | TFinished.

Inductive holder := HRun | HClose | HTimer (n : nat).

Record state := mkState {
  done : bool;                    (* close(done) has happened *)
  watcher_open : bool;
  lock : option holder;           (* refreshMu *)
  refreshTimer : option nat;      (* the timer the field points to *)
  timers : list timer;            (* every timer ever armed, by number *)
  run : run_pc;
  closer : close_pc;
  refreshes : nat;                (* refresh calls made by timers *)
  refreshes_after_close : nat     (* those made after Close returned *)
}.

Definition init : state :=
  mkState false true None None [] RSelect CIdle 0 0.

Inductive action :=
  | Recv          (* run: an event arrives, handleEvent calls scheduleRefresh *)
  | Exit          (* run: select sees done closed or the channels closed *)
  | CheckDone     (* scheduleRefresh: select on done *)
  | Lock          (* scheduleRefresh: refreshMu.Lock() *)
  | Arm           (* scheduleRefresh: Stop the old timer, AfterFunc, Unlock *)
  | CloseStart    (* Close: closeOnce.Do, close(done) *)
  | CloseLock     (* Close: refreshMu.Lock() *)
  | CloseStop     (* Close: Stop the timer, set it nil, Unlock *)
  | CloseWatcher  (* Close: watcher.Close() *)
  | CloseWait     (* Close: wg.Wait() returns *)
  | Fire (n : nat)     (* timer n fires: its callback runs refresh *)
  | CbLock (n : nat)   (* callback n: refreshMu.Lock() *)
  | CbUnlock (n : nat) (* callback n: clear refreshTimer, Unlock *)
  .

Definition timer_at (s : state) (n : nat) : option timer := nth_error (timers s) n.

Definition set_timer (s : state) (n : nat) (t : timer) : list timer :=
  <[ n := t ]> (timers s).

(** [t.Stop()]: an armed timer never fires; a fired one is unaffected. *)
Definition stop (ts : list timer) (n : option nat) : list timer :=
  match n with
  | Some n => match nth_error ts n with Some TArmed => <[ n := TStopped ]> ts | _ => ts end
  | None => ts
  end.

(** The end of the timer callback: [Library] clears [refreshTimer] when it
    still points to this timer ([l.refreshTimer == timer]); [TokenStore]
    clears it whenever it is not nil. *)
Definition cb_clear (v : variant) (cur : option nat) (n : nat) : option nat :=
  match v with
  | LibraryV => if decide (cur = Some n) then None else cur
  | TokenStoreV => match cur with Some _ => None | None => None end
  end.

Definition with_run (s : state) (pc : run_pc) : state :=
  mkState (done s) (watcher_open s) (lock s) (refreshTimer s) (timers s) pc
          (closer s) (refreshes s) (refreshes_after_close s).

Definition with_closer (s : state) (pc : close_pc) : state :=
  mkState (done s) (watcher_open s) (lock s) (refreshTimer s) (timers s) (run s)
          pc (refreshes s) (refreshes_after_close s).

Definition step (v : variant) (s : state) (a : action) : option state :=
  match a with
  | Recv =>
      match run s with
      | RSelect => if watcher_open s then Some (with_run s RCheckDone) else None
      | _ => None
      end
  | Exit =>
      match run s with
      | RSelect => if done s || negb (watcher_open s) then Some (with_run s RExited) else None
      | _ => None
      end
  | CheckDone =>
      match run s with
      | RCheckDone => Some (with_run s (if done s then RSelect else RLock))
      | _ => None
      end
  | Lock =>
      match run s, lock s with
      | RLock, None =>
          Some (mkState (done s) (watcher_open s) (Some HRun) (refreshTimer s) (timers s)
                        RArm (closer s) (refreshes s) (refreshes_after_close s))
      | _, _ => None
      end
  | Arm =>
      match run s with
      | RArm =>
          let ts := stop (timers s) (refreshTimer s) in
          Some (mkState (done s) (watcher_open s) None (Some (List.length ts))
                        (ts ++ [TArmed]) RSelect (closer s) (refreshes s)
                        (refreshes_after_close s))
      | _ => None
      end
  | CloseStart =>
      match closer s with
      | CIdle =>
          Some (mkState true (watcher_open s) (lock s) (refreshTimer s) (timers s) (run s)
                        CLock (refreshes s) (refreshes_after_close s))
      | _ => None
      end
  | CloseLock =>
      match closer s, lock s with
      | CLock, None =>
          Some (mkState (done s) (watcher_open s) (Some HClose) (refreshTimer s) (timers s)
                        (run s) CStop (refreshes s) (refreshes_after_close s))
      | _, _ => None
      end
  | CloseStop =>
      match closer s with
      | CStop =>
          Some (mkState (done s) (watcher_open s) None None
                        (stop (timers s) (refreshTimer s)) (run s) CWatcher
                        (refreshes s) (refreshes_after_close s))
      | _ => None
      end
  | CloseWatcher =>
      match closer s with
      | CWatcher =>
          Some (mkState (done s) false (lock s) (refreshTimer s) (timers s) (run s)
                        CWait (refreshes s) (refreshes_after_close s))
      | _ => None
      end
  | CloseWait =>
      match closer s, run s with
      | CWait, RExited => Some (with_closer s CReturned)
      | _, _ => None
      end
  | Fire n =>
      match timer_at s n with
      | Some TArmed =>
          let late := match closer s with CReturned => 1%nat | _ => 0%nat end in
          Some (mkState (done s) (watcher_open s) (lock s) (refreshTimer s)
                        (set_timer s n TRefreshed) (run s) (closer s)
                        (S (refreshes s)) (refreshes_after_close s + late))
      | _ => None
      end
  | CbLock n =>
      match timer_at s n, lock s with
      | Some TRefreshed, None =>
          Some (mkState (done s) (watcher_open s) (Some (HTimer n)) (refreshTimer s)
                        (set_timer s n TLocked) (run s) (closer s)
                        (refreshes s) (refreshes_after_close s))
      | _, _ => None
      end
  | CbUnlock n =>
      match timer_at s n with
      | Some TLocked =>
          Some (mkState (done s) (watcher_open s) None (cb_clear v (refreshTimer s) n)
                        (set_timer s n TFinished) (run s) (closer s)
                        (refreshes s) (refreshes_after_close s))
      | _ => None
      end
  end.

(** Runs a schedule: [None] when some step of it is not enabled. *)
Fixpoint exec (v : variant) (s : state) (acts : list action) : option state :=
  match acts with
  | [] => Some s
  | a :: acts' => match step v s a with Some s' => exec v s' acts' | None => None end
  end.

(** The schedule where an event is handled while [Close] runs: the [run]
    goroutine passes the [done] check, [Close] then closes [done] and
    clears the (still nil) timer, and the goroutine arms a new timer before
    it sees [done] and exits; [Close] returns, and the timer fires. *)
Definition race_schedule : list action :=
  [Recv; CheckDone; CloseStart; CloseLock; CloseStop; CloseWatcher;
   Lock; Arm; Exit; CloseWait; Fire 0].

(** The schedule where a second event arrives while the first timer's
    [refresh] runs: the second timer is armed, the first callback then
    clears [refreshTimer], so [Close] finds nothing to stop, returns, and
    the second timer fires. *)
Definition stale_clear_schedule : list action :=
  [Recv; CheckDone; Lock; Arm; Fire 0;
   Recv; CheckDone; Lock; Arm; CbLock 0; CbUnlock 0;
   CloseStart; CloseLock; CloseStop; CloseWatcher; Exit; CloseWait; Fire 1].

End Scheduler.

(* ================================================================== *)
(** ** What callers of ListEpisodes do with the result *)

Module Caller.
Import Library.

(** A write by the holder of a returned slice [eps]: [eps[i] = f(eps[i])]
    (an element or field assignment), or [*sel(eps[i]) = v] (a write
    through one of the pointer fields). [None] is a Go panic (index out of
    range, nil dereference). *)
Inductive write :=
  | SetElem (i : nat) (f : Episode -> Episode)
  | WriteThrough (i : nat) (sel : Episode -> option loc) (v : cell).

Definition is_slice_write (w : write) : bool :=
  match w with SetElem _ _ => true | WriteThrough _ _ _ => false end.

Definition apply_write (r : loc) (h : heap) (w : write) : option heap :=
  match h !! r with
  | Some (CEpisodes xs) =>
      match w with
      | SetElem i f =>
          match xs !! i with
          | Some e => Some (<[ r := CEpisodes (<[ i := f e ]> xs) ]> h)
          | None => None
          end
      | WriteThrough i sel v =>
          match xs !! i with
          | Some e => match sel e with Some p => Some (<[ p := v ]> h) | None => None end
          | None => None
          end
      end
  | _ => None
  end.

Fixpoint apply_writes (r : loc) (h : heap) (ws : list write) : option heap :=
  match ws with
  | [] => Some h
  | w :: ws' => match apply_write r h w with Some h' => apply_writes r h' ws' | None => None end
  end.

(** The records of the published slice. *)
Definition published (l : Library) (h : heap) : list Episode :=
  match episodes l with
  | Some a => match h !! a with Some (CEpisodes xs) => xs | _ => [] end
  | None => []
  end.

(** What a reader of the published slice observes: each record with the
    values behind its pointers. *)
Definition deref (h : heap) (p : option loc) : option cell :=
  match p with Some p => h !! p | None => None end.

Definition view_episode (h : heap) (e : Episode) :=
  (e, deref h (Artist e), deref h (Album e), deref h (DurationSeconds e),
   deref h (BitrateKbps e)).

Definition published_view (l : Library) (h : heap) :=
  map (view_episode h) (published l h).

(** Every location the published view reads is allocated. *)
Definition ptr_ok (h : heap) (p : option loc) : bool :=
  match p with Some p => bool_decide (p ∈ dom h) | None => true end.

Definition wf (l : Library) (h : heap) : bool :=
  match episodes l with Some a => bool_decide (a ∈ dom h) | None => true end &&
  forallb (fun e => ptr_ok h (Artist e) && ptr_ok h (Album e) &&
                    ptr_ok h (DurationSeconds e) && ptr_ok h (BitrateKbps e))
          (published l h).

End Caller.

(* ================================================================== *)
(** ** internal/library: addWatchRecursive, and what a walk visits *)

Module Watch.



End Watch.


(** The regular files of a tree with their paths, in the same order. *)
Fixpoint file_paths (path : string) (d : entry) : list (string * file_data) :=
  match d with
  | FileE _ f => [(path, f)]
  | DirE _ ds _ => flat_map (fun c => file_paths (Join path (entry_name c)) c) ds
  end.

(* ================================================================== *)
(** ** internal/server: tokens, durations, MIME types and the feed *)

Module Server.

(** What the handlers read of an [*http.Request]: the method, the values of
    [r.URL.Query()], the header values by canonical key, the cookies
    [r.Cookie] parses from the [Cookie] header (in order), and whether
    [r.TLS] is set. *)
Record Request := mkRequest {
  Method : string;
  Query : gmap string (list string);
  Header : gmap string (list string);
  Cookies : list (string * string);
  TLS : bool
}.

(** [url.Values.Get] and [http.Header.Get]: the first value, or "". *)
Definition values_get (m : gmap string (list string)) (key : string) : string :=
  match m !! key with Some (v :: _) => v | _ => "" end.

Definition authCookieName : string := "podcast_token".

(** [r.Cookie(name)]: the first cookie of that name, or an error ([None]). *)
Definition Cookie (r : Request) (name : string) : option string :=
  match List.find (fun c => String.eqb (fst c) name) (Cookies r) with
  | Some c => Some (snd c)
  | None => None
  end.

(** [strings.HasPrefix]. *)
Definition HasPrefix (s prefix : string) : bool := is_prefix (bytes_of prefix) (bytes_of s).

Section Tokens.
Context `{UnicodeTables}.

(** [extractToken]; [authz[7:]] is the string without its first 7 bytes. *)
Definition extractToken (r : Request) : string :=
  let token := TrimSpace (values_get (Query r) "token") in
  if negb (String.eqb token "") then token else
  let header := TrimSpace (values_get (Header r) "X-Podcast-Token") in
  if negb (String.eqb header "") then header else
  let authz := TrimSpace (values_get (Header r) "Authorization") in
  if String.eqb authz "" then "" else
  if HasPrefix (ToLower authz) "bearer " then TrimSpace (string_of_bytes (drop 7 (bytes_of authz)))
  else match Cookie r authCookieName with
       | Some v => let value := TrimSpace v in
                   if negb (String.eqb value "") then value else ""
       | None => ""
       end.

End Tokens.

(** The [TokenValidator] interface value a handler holds: nil, or a
    [*auth.TokenStore] (the implementation [main] uses), which may itself
    be a nil pointer. *)
Inductive validator :=
  | NoValidator
  | StoreValidator (s : option TokenStore.state).

(** [TokenStore.IsValidToken] on a possibly nil pointer receiver: [None] is the
    nil dereference of [s.mu.RLock()], reached once the trimmed token is
    not empty. *)
Definition IsValidToken_ptr (p : option TokenStore.state) (token : string) : option bool :=
  match p with
  | Some s => Some (TokenStore.IsValidToken s token)
  | None => if String.eqb (TrimSpace token) "" then Some false else None
  end.

Section Handlers.
Context `{UnicodeTables}.

(** [requireToken]: the token and whether the request may go on; [None]
    is a panic. *)
Definition requireToken (v : validator) (r : Request) : option (string * bool) :=
  match v with
  | NoValidator => Some ("", true)
  | StoreValidator p =>
      let token := extractToken r in
      if String.eqb token "" then Some ("", false)
      else match IsValidToken_ptr p token with
           | Some true => Some (token, true)
           | Some false => Some ("", false)
           | None => None
           end
  end.

(** What a handler does with a request: a status code (200 with the body),
    or a panic, which [net/http] recovers by dropping the connection. *)
Inductive response := Status (code : Z) | Panic.

(** [handleEpisodes]: 405 for a method other than GET, 401 when
    [requireToken] refuses, else 200 with the JSON of [ListEpisodes()]. *)
Definition handleEpisodes (v : validator) (r : Request) : response :=
  if negb (String.eqb (Method r) "GET") then Status 405
  else match requireToken v r with
       | None => Panic
       | Some (_, false) => Status 401
       | Some (_, true) => Status 200
       end.

End Handlers.

(** The validator [main] passes to [server.New]: its [tokenStore] variable
    of type [*auth.TokenStore], left nil when no token file is configured
    and otherwise the store [auth.NewTokenStore] returned. *)
Definition main_validator (tokensEnabled : bool) (s : TokenStore.state) : validator :=
  StoreValidator (if tokensEnabled then Some s else None).

(** [int64(x)] for a float64 [x]: truncation toward zero; NaN, infinities
    and values out of range give [MinInt64] (the amd64 conversion). *)
Definition int64_of_float (x : float) : Z :=
  match FloatOps.Prim2SF x with
  | SpecFloat.S754_zero _ => 0
  | SpecFloat.S754_finite s m e =>
      let v := if 0 <=? e then Zpos m * 2 ^ e else Zpos m / 2 ^ (- e) in
      let v := if s then - v else v in
      if (MinInt64 <=? v) && (v <? 2 ^ 63) then v else MinInt64
  | _ => MinInt64
  end.

(** The decimal digits of [n >= 0], most significant first; [fuel] bounds
    their number. *)
Fixpoint digits_aux (fuel : nat) (n : Z) (acc : list N) : list N :=
  match fuel with
  | O => acc
  | S f =>
      let acc := (48 + Z.to_N (n mod 10))%N :: acc in
      if n <? 10 then acc else digits_aux f (n / 10) acc
  end.

Definition digits (n : Z) : list N := digits_aux (S (Z.to_nat (Z.log2 n))) n [].

(** [fmt.Sprintf("%02d", n)]: the sign, then the digits, padded with zeros
    after the sign to a width of 2 in all. *)
Definition pad02 (n : Z) : string :=
  if n <? 0 then string_of_bytes (45%N :: digits (- n))
  else if n <? 10 then string_of_bytes (48%N :: digits n)
  else string_of_bytes (digits n).

Definition half : float := PrimFloat.div (float_of_int64 1) (float_of_int64 2).

(** [formatDuration]; Go's [/] and [%] on integers truncate toward zero. *)
Definition formatDuration (seconds : float) : string :=
  if PrimFloat.leb seconds fzero then ""
  else
    let total := int64_of_float (PrimFloat.add seconds half) in
    let hours := Z.quot total 3600 in
    let minutes := Z.quot (Z.rem total 3600) 60 in
    let secs := Z.rem total 60 in
    pad02 hours ++ ":" ++ pad02 minutes ++ ":" ++ pad02 secs.

(** [mime.TypeByExtension]: the built-in table and the system's MIME files. *)
Class MimeTable := { TypeByExtension : string -> string }.

Definition fallbackMIMETypes : list (string * string) :=
  [(".m4a", "audio/mp4"); (".aac", "audio/aac"); (".flac", "audio/flac"); (".ogg", "audio/ogg")].

Section Feed.
Context `{UnicodeTables} `{MimeTable}.

(** [mimeTypeForFilename]. *)
Definition mimeTypeForFilename (name : string) : string :=
  let ext := ToLower (Ext name) in
  if negb (String.eqb ext "") then
    let value := TypeByExtension ext in
    if negb (String.eqb value "") then value
    else match List.find (fun kv => String.eqb (fst kv) ext) fallbackMIMETypes with
         | Some kv => snd kv
         | None => "application/octet-stream"
         end
  else "application/octet-stream".

(** [time.Time.IsZero], [Equal] and [After]; the zero [Time] is January 1
    of year 1, [unixToInternal] seconds before the Unix epoch. *)
Definition unixToInternal : Z := 62135596800.
Definition zero_time : time := mkTime (- unixToInternal) 0 true.
Definition IsZero (t : time) : bool := (t_sec t =? - unixToInternal) && (t_nsec t =? 0).
Definition Equal (t u : time) : bool := (t_sec t =? t_sec u) && (t_nsec t =? t_nsec u).
Definition After (t u : time) : bool :=
  (t_sec u <? t_sec t) || ((t_sec t =? t_sec u) && (t_nsec u <? t_nsec t)).

(** The comparison [buildRSSFeed] hands to [sort.SliceStable]. *)
Definition feed_less (a b : Episode) : bool :=
  if Equal (ModifiedAt a) (ModifiedAt b) then str_ltb (ID b) (ID a)
  else After (ModifiedAt a) (ModifiedAt b).

(** The [lastBuild] loop of [buildRSSFeed], then [time.Now().UTC()] when it
    found nothing. *)
Definition lastBuild (now : time) (sorted : list Episode) : time :=
  let lb := fold_left (fun lb ep =>
              if negb (IsZero (ModifiedAt ep)) && (IsZero lb || After (ModifiedAt ep) lb)
              then UTC (ModifiedAt ep) else lb) sorted zero_time in
  if IsZero lb then UTC now else lb.

(** The value behind a [*string]. *)
Definition deref_string (h : heap) (p : option loc) : option string :=
  match p with
  | Some p => match h !! p with Some (CString v) => Some v | _ => None end
  | None => None
  end.

(** The separator of [episodeDescription]: " – " (an en dash in UTF-8). *)
Definition dash_sep : string := string_of_bytes [32; 226; 128; 147; 32]%N.

(** [episodeDescription]. *)
Definition episodeDescription (h : heap) (ep : Episode) : string :=
  let parts :=
    match deref_string h (Artist ep) with
    | Some a => if String.eqb a "" then [] else [a]
    | None => []
    end ++
    match deref_string h (Album ep) with
    | Some a => if String.eqb a "" then [] else [a]
    | None => []
    end ++ [Filename ep] in
  String.concat dash_sep parts.

(** The fields of an [rssItem] that do not go through [net/url] or
    [time.Format]: title, guid, description, enclosure length and type,
    itunes:duration and itunes:author ("" when omitted). *)
Record Item := mkItem {
  ITitle : string;
  IGUID : string;
  IDescription : string;
  ILength : Z;
  IType : string;
  IDuration : string;
  IAuthor : string
}.

(** The item [buildRSSFeed] builds for [ep]; [author] is [h.feed.Author]. *)
Definition make_item (author : string) (h : heap) (ep : Episode) : Item :=
  mkItem (Title ep) (ID ep) (episodeDescription h ep) (FilesizeBytes ep)
         (mimeTypeForFilename (Filename ep))
         (match DurationSeconds ep with
          | Some p => match h !! p with Some (CFloat d) => formatDuration d | _ => "" end
          | None => ""
          end)
         (match deref_string h (Artist ep) with Some a => a | None => author end).

(** The items of [buildRSSFeed]: one per record of the sorted copy, in
    its order. *)
Definition feed_items (author : string) (h : heap) (episodes : list Episode) : list Item :=
  map (make_item author h) (SliceStable feed_less episodes).

End Feed.

End Server.

(* ================================================================== *)
(** ** internal/config *)

Module Config.

Definition is_digit (c : N) : bool := (48 <=? c)%N && (c <=? 57)%N.

Definition digits_value (ds : list N) : Z :=
  fold_left (fun n c => n * 10 + Z.of_N (c - 48)) ds 0.

(** [strconv.Atoi]: an optional sign and at least one decimal digit, with a
    value in the range of a 64-bit [int]. Its fast path (fewer than 19
    bytes) and [ParseInt(s, 10, 0)] accept exactly these strings. *)
Definition Atoi (s : string) : option Z :=
  let b := bytes_of s in
  let '(neg, ds) := match b with
                    | 45%N :: r => (true, r)
                    | 43%N :: r => (false, r)
                    | _ => (false, b)
                    end in
  if match ds with [] => true | _ => false end || negb (forallb is_digit ds) then None
  else
    let v := digits_value ds in
    let n := if neg then - v else v in
    if (MinInt64 <=? n) && (n <? 2 ^ 63) then Some n else None.

Definition defaultRefreshDebounceMS : Z := 500.
Definition Millisecond : Z := 1000000.

(** [int64] multiplication wraps around. *)
Definition wrap64 (z : Z) : Z := (z + 2 ^ 63) mod 2 ^ 64 - 2 ^ 63.

(** [RefreshDebounce], given the value of [PODCAST_REFRESH_DEBOUNCE_MS]
    ("" when unset): a [time.Duration] in nanoseconds. *)
Definition RefreshDebounce (env : string) : Z :=
  let value := TrimSpace env in
  if String.eqb value "" then defaultRefreshDebounceMS * Millisecond
  else match Atoi value with
       | Some ms =>
           if ms <? 0 then defaultRefreshDebounceMS * Millisecond
           else wrap64 (ms * Millisecond)
       | None => defaultRefreshDebounceMS * Millisecond
       end.

Record FeedMetadata := mkFeedMetadata {
  FTitle : string;
  FDescription : string;
  FLanguage : string;
  FAuthor : string
}.

Definition defaultFeedTitle : string := "Home Podcast".
Definition defaultFeedDescription : string :=
  "Private podcast feed generated from the local audio library.".
Definition defaultFeedLanguage : string := "en".

(** The step [if value := strings.TrimSpace(v); value != "" { field = value }]. *)
Definition override (v cur : string) : string :=
  let value := TrimSpace v in if String.eqb value "" then cur else value.

(** [ResolveFeedMetadata]: [getenv] is the environment; [load] is what
    [resolveConfigPath], [os.ReadFile] and [yaml.Unmarshal] make of the
    configured path: the decoded fields, or [None] when one of them fails. *)
Definition ResolveFeedMetadata (getenv : string -> string)
  (load : string -> option FeedMetadata) : option FeedMetadata :=
  let meta := mkFeedMetadata defaultFeedTitle defaultFeedDescription defaultFeedLanguage "" in
  let configPath := TrimSpace (getenv "PODCAST_FEED_CONFIG") in
  let meta :=
    if negb (String.eqb configPath "") then
      match load configPath with
      | Some y =>
          Some (mkFeedMetadata (override (FTitle y) (FTitle meta))
                               (override (FDescription y) (FDescription meta))
                               (override (FLanguage y) (FLanguage meta))
                               (override (FAuthor y) (FAuthor meta)))
      | None => None
      end
    else Some meta in
  match meta with
  | Some meta =>
      Some (mkFeedMetadata (override (getenv "PODCAST_FEED_TITLE") (FTitle meta))
                           (override (getenv "PODCAST_FEED_DESCRIPTION") (FDescription meta))
                           (override (getenv "PODCAST_FEED_LANGUAGE") (FLanguage meta))
                           (override (getenv "PODCAST_FEED_AUTHOR") (FAuthor meta)))
  | None => None
  end.

End Config.

(* ================================================================== *)
(** ** Example inputs *)

(** A table in which no non-ASCII rune has a case mapping; the examples
    below only use ASCII names, which never reach it. *)
#[export] Instance ascii_tables : UnicodeTables := {
  unicode_to_lower := fun s => s;
  unicode_equal_fold := fun s t => String.eqb s t
}.

Definition nl : string := String (ascii_of_nat 10) EmptyString.

(** The token file of the spec's example: ["alpha\n\n beta \n"]. *)
Definition token_file_example : string := "alpha" ++ nl ++ nl ++ " beta " ++ nl.

(** Spec's words for the modification time: truncated to whole seconds, in UTC. *)
Definition truncate_second_utc (t : time) : time := mkTime (t_sec t) 0 true.

Definition wav_file (sec nsec : Z) : file_data :=
  mkFile (Some (mkInfo 5 (mkTime sec nsec false))) true None [] true.

(** An MP3 of 1,000,000 bytes decoding to two 30-second frames. *)
Definition mp3_file : file_data :=
  mkFile (Some (mkInfo 1000000 (mkTime 1700000000 0 false))) true None
         [float_of_int64 30; float_of_int64 30] true.

(** A catalog where the walk order differs from the published order: the
    directory "a" comes before "a.wav" in [os.ReadDir], but "a.wav" sorts
    before "a/x.wav" ('.' < '/'). *)
Definition nested_tree : entry :=
  DirE "audio" [DirE "a" [FileE "x.wav" (wav_file 10 0)] None;
                FileE "a.wav" (wav_file 20 0)] None.

Definition empty_library (exts : list string) : Library.Library :=
  Library.mkLibrary "/srv/audio" (Library.allowed_set exts) None.

(** The record [BuildEpisode] builds for a WAV file modified at
    [sec + nsec * 1e-9]. *)
Definition wav_episode (sec nsec : Z) : build_error + (Episode * heap) :=
  BuildEpisode "/srv/audio/show.wav" "/srv/audio" (wav_file sec nsec) ∅.

Definition mp3_episode : build_error + (Episode * heap) :=
  BuildEpisode "/srv/audio/show.mp3" "/srv/audio" mp3_file ∅.

Definition bytes128 : list N := map N.of_nat (seq 0 128).

Definition ascii_upper_byte (c : N) : N :=
  if (97 <=? c)%N && (c <=? 122)%N then (c - 32)%N else c.

(** One round of the byte loop of [EqualFold], on two ASCII bytes. *)
Definition fold_step (sr tr : N) : bool :=
  if N.eqb tr sr then true
  else let '(sr, tr) := if (tr <? sr)%N then (tr, sr) else (sr, tr) in
       (65 <=? sr)%N && (sr <=? 90)%N && N.eqb tr (sr + 32)%N.

Definition byte_facts (a b : N) : bool :=
  negb (RuneSelf <=? N.lor a b)%N && Bool.eqb (fold_step a b) (N.eqb (ascii_lower_byte a) (ascii_lower_byte b)) &&
  N.eqb (ascii_lower_byte (ascii_upper_byte a)) (ascii_lower_byte a) &&
  (ascii_lower_byte a <? 128)%N && (ascii_upper_byte a <? 128)%N.

(** [ascii_upper s]: [s] with its ASCII letters upper-cased. *)
Definition ascii_upper (s : string) : string :=
  string_of_bytes (map ascii_upper_byte (bytes_of s)).

(** The order the sorted slice is in: no element is less than the one
    before it. *)
Definition not_less {A : Type} (less : A -> A -> bool) (a b : A) : Prop := less b a = false.

(** The order of C7: by relative path, then by file name. *)
Definition path_order (a b : Episode) : Prop :=
  str_ltb (RelativePath a) (RelativePath b) = true \/
  (RelativePath a = RelativePath b /\ str_ltb (Filename b) (Filename a) = false).

(** A published catalog of one record whose artist lives at location 1. *)
Definition shared_record : Episode :=
  mkEpisode "a.mp3" "a.mp3" "a.mp3" "A" (Some 1%positive) None None None 3 (mkTime 0 0 true).

Definition shared_heap : heap :=
  <[ 2%positive := CEpisodes [shared_record] ]> (<[ 1%positive := CString "Artist" ]> ∅).

Definition shared_library : Library.Library :=
  Library.mkLibrary "/srv/audio" ∅ (Some 2%positive).

Definition rename_first : Caller.write :=
  Caller.SetElem 0 (fun e =>
    mkEpisode (ID e) (Filename e) (RelativePath e) "mutated" None (Album e)
              (DurationSeconds e) (BitrateKbps e) (FilesizeBytes e) (ModifiedAt e)).

(* ================================================================== *)
(** ** Inputs and orders of the further properties *)

(** A GET carrying only the auth cookie. *)
Definition cookie_request : Server.Request :=
  Server.mkRequest "GET" ∅ ∅ [("podcast_token", "alpha")] false.

(** One step of the decimal value of a digit string. *)
Definition digit_step (n : Z) (c : N) : Z := n * 10 + Z.of_N (c - 48).

(** The value of the first layer that sets a field: the trimmed value of
    the first candidate that is not blank, else the default. *)
Definition first_nonblank (vs : list string) (dflt : string) : string :=
  match List.find (fun v => negb (String.eqb (TrimSpace v) "")) vs with
  | Some v => TrimSpace v
  | None => dflt
  end.

(** The tags [readTags] sees: none when the file does not open. *)
Definition raw_tags (f : file_data) : option (string * string * string) :=
  if fd_open f then fd_tags f else None.

(** Newest first; equal times in descending ID order. *)
Definition feed_order (a b : Episode) : Prop :=
  Server.After (ModifiedAt b) (ModifiedAt a) = false /\
  (Server.Equal (ModifiedAt a) (ModifiedAt b) = true -> str_ltb (ID a) (ID b) = false).

(** One round of the [lastBuild] loop. *)
Definition lb_step (lb : time) (ep : Episode) : time :=
  if negb (Server.IsZero (ModifiedAt ep)) && (Server.IsZero lb || Server.After (ModifiedAt ep) lb)
  then UTC (ModifiedAt ep) else lb.

(** A WAV file without tags whose name is only its extension. *)
Definition dotwav_episode : build_error + (Episode * heap) :=
  BuildEpisode "/srv/audio/.wav" "/srv/audio" (wav_file 1 0) ∅.

(** A WAV file tagged with title " Talk ", artist " Ann " and a blank album. *)
Definition tagged_file : file_data :=
  mkFile (Some (mkInfo 5 (mkTime 1 0 false))) true (Some (" Talk ", " Ann ", " ")) [] true.

Definition tagged_episode : build_error + (Episode * heap) :=
  BuildEpisode "/srv/audio/talk.wav" "/srv/audio" tagged_file ∅.

Section CatalogDefs.
Context `{UnicodeTables}.

(** The relative path [BuildEpisode] gives a file. *)
Definition rel_of (root path : string) : string :=
  match Rel root path with Some r => r | None => Base path end.

(** What a published record says about its file. *)
Definition catalog_key (e : Episode) : string * string * Z :=
  (RelativePath e, Filename e, FilesizeBytes e).

(** The keys of the allowed, stat-able regular files of a tree, in walk order. *)
Definition expected_keys (l : Library.Library) (path : string) (d : entry) : list (string * string * Z) :=
  flat_map (fun pf =>
              if Library.isAllowed l (fst pf) then
                match fd_stat (snd pf) with
                | Some info => [(rel_of (Library.root l) (fst pf), Base (fst pf), Size info)]
                | None => []
                end
              else []) (file_paths path d).

End CatalogDefs.

(* ################################################################## *)
(** * Properties *)

(* ================================================================== *)
(** ** The token store *)

(** C5: the spec's token file yields exactly {"alpha", "beta"}; in every
    state the empty token is invalid; and " alpha " is valid whenever
    "alpha" is in the set, as the input is trimmed first. *)
Theorem C5_token_parsing :
  TokenStore.parse_tokens token_file_example = {[ "alpha"; "beta" ]} /\
  (forall s : TokenStore.state, TokenStore.IsValidToken s "" = false) /\
  (forall s : TokenStore.state,
     "alpha" ∈ TokenStore.tokens s -> TokenStore.IsValidToken s " alpha " = true).
Proof.
  split; [vm_compute; reflexivity |].
  split.
  - intros s. reflexivity.
  - intros s Hin. unfold TokenStore.IsValidToken.
    change (TrimSpace " alpha ") with "alpha". simpl.
    now apply bool_decide_eq_true.
Qed.

Lemma C5_token_parsing_witness :
  "alpha" ∈ TokenStore.tokens (TokenStore.mkState {[ "alpha"; "beta" ]}) /\
  TokenStore.IsValidToken (TokenStore.mkState {[ "alpha"; "beta" ]}) " alpha " = true.
Proof.
  assert (H : "alpha" ∈ TokenStore.tokens (TokenStore.mkState {[ "alpha"; "beta" ]}))
    by (simpl; set_solver).
  split; [exact H | exact (proj2 (proj2 C5_token_parsing) _ H)].
Defined.

(** C6: [refresh] fails only on a read error other than not-exist, and then
    returns that error and keeps the published set; a missing file empties
    the set without error. *)
Theorem C6_refresh_error_policy :
  (forall s : TokenStore.state,
     TokenStore.refresh (TokenStore.ReadErr ErrNotExist) s = (TokenStore.mkState ∅, None)) /\
  (forall (rd : TokenStore.read_result) (s : TokenStore.state) (e : io_error),
     snd (TokenStore.refresh rd s) = Some e ->
     rd = TokenStore.ReadErr e /\ is_not_exist e = false /\ fst (TokenStore.refresh rd s) = s) /\
  (forall (s : TokenStore.state) (e : io_error),
     is_not_exist e = false -> TokenStore.refresh (TokenStore.ReadErr e) s = (s, Some e)).
Proof.
  split; [reflexivity |]. split.
  - intros [data | e'] s e; simpl.
    + discriminate.
    + destruct (is_not_exist e') eqn:He; simpl; [discriminate |].
      intros [= ->]. auto.
  - intros s e He. simpl. now rewrite He.
Qed.

Lemma C6_refresh_error_policy_witness :
  is_not_exist ErrPermission = false /\
  snd (TokenStore.refresh (TokenStore.ReadErr ErrPermission) (TokenStore.mkState {[ "alpha" ]}))
    = Some ErrPermission /\
  fst (TokenStore.refresh (TokenStore.ReadErr ErrPermission) (TokenStore.mkState {[ "alpha" ]}))
    = TokenStore.mkState {[ "alpha" ]}.
Proof.
  split; [reflexivity |].
  split; [reflexivity |].
  exact (proj2 (proj2 (proj1 (proj2 C6_refresh_error_policy)
    (TokenStore.ReadErr ErrPermission) (TokenStore.mkState {[ "alpha" ]}) ErrPermission eq_refl))).
Defined.

(* ================================================================== *)
(** ** Event filtering *)

(** C8: an event schedules a refresh exactly when its operation has a
    create, write, remove or rename bit and either the path's extension is
    accepted or the operation has a remove or rename bit; so an event with
    no remove or rename bit on a path whose extension is not accepted never
    schedules one. *)
Theorem C8_event_filter `{UnicodeTables} :
  forall (l : Library.Library) (ev : Library.Event) (is_dir : bool),
    (snd (Library.handleEvent l ev is_dir) = true <->
       Z.land (Library.Op ev)
         (Z.lor (Z.lor Library.Create Library.Write) (Z.lor Library.Remove Library.Rename)) <> 0 /\
       (Library.isAllowed l (Library.Name ev) = true \/
        Z.land (Library.Op ev) (Z.lor Library.Remove Library.Rename) <> 0)) /\
    (Z.land (Library.Op ev) (Z.lor Library.Remove Library.Rename) = 0 ->
     Library.isAllowed l (Library.Name ev) = false ->
     snd (Library.handleEvent l ev is_dir) = false).
Proof.
  intros l ev is_dir. unfold Library.handleEvent; simpl.
  split.
  - rewrite andb_true_iff, orb_true_iff, !negb_true_iff, !Z.eqb_neq. tauto.
  - intros Hrr Hal. rewrite Hal, Hrr. simpl. apply andb_false_r.
Qed.

(* ================================================================== *)
(** ** Close and the debounce timer *)

Module SchedulerFacts.
Import Scheduler.

(** Once [done] is closed, [scheduleRefresh] returns at its first check
    and touches neither the lock nor the timer. *)
Lemma check_done_after_close (v : variant) (s : state) :
  done s = true -> run s = RCheckDone -> step v s CheckDone = Some (with_run s RSelect).
Proof. intros Hd Hr. simpl. rewrite Hr, Hd. reflexivity. Qed.

(** C1 (refuted on the code): a refresh can run after [Close] has returned.
    In the [Library], an event handled while [Close] runs arms a timer
    after [Close] cleared the timer field; in the [TokenStore], a callback
    that clears [refreshTimer] unconditionally forgets a newer timer, which
    [Close] then cannot stop. [Library]'s identity check keeps that second
    schedule from happening there. *)
Theorem C1_refresh_after_close :
  (exists s, exec LibraryV init race_schedule = Some s /\
             closer s = CReturned /\ refreshes_after_close s = 1%nat) /\
  (exists s, exec TokenStoreV init race_schedule = Some s /\
             closer s = CReturned /\ refreshes_after_close s = 1%nat) /\
  (exists s, exec TokenStoreV init stale_clear_schedule = Some s /\
             closer s = CReturned /\ refreshes_after_close s = 1%nat) /\
  exec LibraryV init stale_clear_schedule = None.
Proof.
  split; [eexists; vm_compute; split; [reflexivity | split; reflexivity] |].
  split; [eexists; vm_compute; split; [reflexivity | split; reflexivity] |].
  split; [eexists; vm_compute; split; [reflexivity | split; reflexivity] |].
  vm_compute. reflexivity.
Qed.

End SchedulerFacts.

(* ================================================================== *)
(** ** BuildEpisode *)

Section BuildFacts.
Context `{UnicodeTables}.

Lemma alloc_fresh (h : heap) (c : cell) :
  (fst (alloc h c) ∉ dom h) /\ snd (alloc h c) = <[ fst (alloc h c) := c ]> h.
Proof. unfold alloc. simpl. split; [apply is_fresh | reflexivity]. Qed.

(** The shape of a successful [BuildEpisode]: the record it builds from the
    stat result, tags and duration. *)
Lemma BuildEpisode_inv (path root : string) (f : file_data) (h : heap) e h' :
  BuildEpisode path root f h = inr (e, h') ->
  exists info, fd_stat f = Some info /\
    FilesizeBytes e = Size info /\
    ModifiedAt e = Round_second (UTC (ModTime info)) /\
    (EqualFold (Ext path) ".mp3" = false ->
       DurationSeconds e = None /\ BitrateKbps e = None) /\
    (forall lb, BitrateKbps e = Some lb ->
       exists ld d, DurationSeconds e = Some ld /\ h' !! ld = Some (CFloat d) /\
                    PrimFloat.ltb fzero d = true /\
                    h' !! lb = Some (CInt (bitrate_of (Size info) d)) /\
                    0 < bitrate_of (Size info) d).
Proof.
  unfold BuildEpisode. destruct (fd_stat f) as [info |]; [| discriminate].
  destruct (readTags h f) as [[[title artist] album] h1].
  destruct (EqualFold (Ext path) ".mp3") eqn:Emp3.
  - destruct (computeMP3Duration f) as [dur |].
    + destruct (PrimFloat.ltb fzero dur) eqn:Hpos.
      * destruct (alloc h1 (CFloat dur)) as [ld h2] eqn:Ed.
        destruct (0 <? bitrate_of (Size info) dur) eqn:Hb.
        -- destruct (alloc h2 (CInt (bitrate_of (Size info) dur))) as [lb h3] eqn:Eb.
           intros [= <- <-]. exists info. simpl.
           split; [reflexivity |]. split; [reflexivity |]. split; [reflexivity |].
           split; [discriminate |].
           intros lb' [= <-]. exists ld, dur.
           pose proof (alloc_fresh h1 (CFloat dur)) as [Fd Hd].
           pose proof (alloc_fresh h2 (CInt (bitrate_of (Size info) dur))) as [Fb Hb3].
           rewrite Ed in Fd, Hd. rewrite Eb in Fb, Hb3. simpl in *. subst h2 h3.
           split; [reflexivity |].
           split.
           { rewrite lookup_insert_ne.
             - apply lookup_insert_eq.
             - intros ->. apply Fb. rewrite dom_insert_L. set_solver. }
           split; [exact Hpos |].
           split; [apply lookup_insert_eq | lia].
        -- intros [= <- <-]. exists info. simpl.
           repeat split; try discriminate.
      * intros [= <- <-]. exists info. simpl. repeat split; discriminate.
    + intros [= <- <-]. exists info. simpl. repeat split; discriminate.
  - intros [= <- <-]. exists info. simpl. repeat split; discriminate.
Qed.

End BuildFacts.

(** C4 (refuted): a file modified 0.6 s after a whole second gets the
    following second, not the truncated one. *)
Lemma C4_modtime_not_truncated :
  (exists e h, wav_episode 1700000000 600000000 = inr (e, h) /\
     ModifiedAt e = mkTime 1700000001 0 true /\
     ModifiedAt e <> truncate_second_utc (mkTime 1700000000 600000000 false)).
Proof.
  eexists _, _. split; [vm_compute; reflexivity |].
  split; [vm_compute; reflexivity |].
  vm_compute. intros [=].
Qed.

(** C4 (as the code does it): the record's timestamp is the modification
    time in UTC rounded to the nearest whole second, half a second rounding
    up ([Time.Round(time.Second)]). *)
Theorem C4_modtime_rounded `{UnicodeTables} :
  forall (path root : string) (f : file_data) (h : heap) e h',
    BuildEpisode path root f h = inr (e, h') ->
    exists info, fd_stat f = Some info /\
      ModifiedAt e =
        mkTime (t_sec (ModTime info) +
                (if t_nsec (ModTime info) + t_nsec (ModTime info) <? Second then 0 else 1))
               0 true.
Proof.
  intros path root f h e h' Hb.
  destruct (BuildEpisode_inv path root f h e h' Hb) as (info & Hs & _ & Ht & _).
  exists info. split; [exact Hs |]. rewrite Ht.
  unfold Round_second, UTC, Add; simpl.
  destruct (t_nsec (ModTime info) + t_nsec (ModTime info) <? Second).
  - replace (t_nsec (ModTime info) + - t_nsec (ModTime info)) with 0 by lia.
    reflexivity.
  - replace (t_nsec (ModTime info) + (Second - t_nsec (ModTime info))) with Second by lia.
    unfold Second. reflexivity.
Qed.

Lemma C4_modtime_rounded_witness :
  exists e h, wav_episode 1700000000 600000000 = inr (e, h) /\
    exists info, fd_stat (wav_file 1700000000 600000000) = Some info /\
      ModifiedAt e =
        mkTime (t_sec (ModTime info) +
                (if t_nsec (ModTime info) + t_nsec (ModTime info) <? Second then 0 else 1))
               0 true.
Proof.
  eexists _, _. split; [vm_compute; reflexivity |].
  exact (C4_modtime_rounded _ _ _ _ _ _ (eq_refl : wav_episode 1700000000 600000000 = _)).
Defined.

(** C9: a populated bitrate comes with a populated, strictly positive
    duration, equals [int(math.Round(size * 8 / duration / 1000))] in
    float64 arithmetic and is strictly positive; a file whose extension is
    not ".mp3" (ignoring case) has neither field. *)
Theorem C9_bitrate_invariant `{UnicodeTables} :
  forall (path root : string) (f : file_data) (h : heap) e h',
    BuildEpisode path root f h = inr (e, h') ->
    (forall lb, BitrateKbps e = Some lb ->
       exists ld d b, DurationSeconds e = Some ld /\ h' !! ld = Some (CFloat d) /\
         PrimFloat.ltb fzero d = true /\ h' !! lb = Some (CInt b) /\
         b = bitrate_of (FilesizeBytes e) d /\ 0 < b) /\
    (EqualFold (Ext path) ".mp3" = false ->
       DurationSeconds e = None /\ BitrateKbps e = None).
Proof.
  intros path root f h e h' Hb.
  destruct (BuildEpisode_inv path root f h e h' Hb)
    as (info & _ & Hsize & _ & Hnot & Hbit).
  split; [| exact Hnot].
  intros lb Hlb. destruct (Hbit lb Hlb) as (ld & d & Hd & Hld & Hpos & Hlb' & Hgt).
  exists ld, d, (bitrate_of (Size info) d). rewrite Hsize. repeat split; assumption.
Qed.

Lemma C9_bitrate_invariant_witness :
  exists e h, mp3_episode = inr (e, h) /\ BitrateKbps e <> None /\
    exists ld d b, DurationSeconds e = Some ld /\ h !! ld = Some (CFloat d) /\
      PrimFloat.ltb fzero d = true /\ Caller.deref h (BitrateKbps e) = Some (CInt b) /\
      b = bitrate_of (FilesizeBytes e) d /\ 0 < b.
Proof.
  eexists _, _. split; [vm_compute; reflexivity |].
  split; [vm_compute; discriminate |].
  destruct (proj1 (C9_bitrate_invariant _ _ _ _ _ _ (eq_refl : mp3_episode = _))
              _ eq_refl) as (ld & d & b & H1 & H2 & H3 & H4 & H5 & H6).
  exists ld, d, b. repeat split; assumption.
Defined.

(* ================================================================== *)
(** ** Bytes and case *)

Lemma string_of_bytes_of (s : string) : string_of_bytes (bytes_of s) = s.
Proof.
  unfold string_of_bytes, bytes_of. rewrite map_map.
  rewrite (map_ext _ id ascii_N_embedding), map_id.
  apply string_of_list_ascii_of_string.
Qed.

Lemma bytes_of_string (b : list N) :
  Forall (fun c => (c < 256)%N) b -> bytes_of (string_of_bytes b) = b.
Proof.
  intros Hb. unfold string_of_bytes, bytes_of.
  rewrite list_ascii_of_string_of_list_ascii, map_map.
  induction Hb as [| c b Hc Hb IH]; [reflexivity |].
  simpl. rewrite IH, N_ascii_embedding by exact Hc. reflexivity.
Qed.

Lemma bytes_of_bound (s : string) : Forall (fun c => (c < 256)%N) (bytes_of s).
Proof.
  unfold bytes_of. apply List.Forall_forall. intros c Hc.
  apply in_map_iff in Hc as (a & <- & _). apply N_ascii_bounded.
Qed.

Lemma bytes_of_inj (s t : string) : bytes_of s = bytes_of t -> s = t.
Proof.
  intros E. rewrite <- (string_of_bytes_of s), <- (string_of_bytes_of t), E. reflexivity.
Qed.

Lemma in_bytes128 (c : N) : (c < 128)%N -> In c bytes128.
Proof.
  intros Hc. unfold bytes128. apply in_map_iff. exists (N.to_nat c).
  split; [apply N2Nat.id |]. apply in_seq. lia.
Qed.

Lemma byte_facts_all : forallb (fun a => forallb (byte_facts a) bytes128) bytes128 = true.
Proof. vm_compute. reflexivity. Qed.

Lemma byte_facts_ok (a b : N) : (a < 128)%N -> (b < 128)%N -> byte_facts a b = true.
Proof.
  intros Ha Hb. pose proof byte_facts_all as F.
  rewrite forallb_forall in F. specialize (F a (in_bytes128 a Ha)).
  rewrite forallb_forall in F. exact (F b (in_bytes128 b Hb)).
Qed.

Section CaseFacts.
Context `{UnicodeTables}.

Lemma equal_fold_bytes_ascii (s t : list N) :
  Forall (fun c => (c < 128)%N) s -> Forall (fun c => (c < 128)%N) t ->
  equal_fold_bytes s t = bool_decide (map ascii_lower_byte s = map ascii_lower_byte t).
Proof.
  intros Hs. revert t. induction Hs as [| a s Ha Hs IH]; intros t Ht.
  - destruct Ht; reflexivity.
  - destruct Ht as [| b t Hb Ht].
    + reflexivity.
    + pose proof (byte_facts_ok a b Ha Hb) as F. unfold byte_facts in F.
      apply andb_prop in F as [F _]. apply andb_prop in F as [F _].
      apply andb_prop in F as [F _]. apply andb_prop in F as [Hlor Hstep].
      apply negb_true_iff in Hlor. apply Bool.eqb_prop in Hstep.
      simpl. rewrite Hlor. unfold fold_step in Hstep.
      rewrite (IH t Ht).
      destruct (N.eqb b a) eqn:Eba.
      * apply N.eqb_eq in Eba. subst b.
        apply bool_decide_ext. split; [intros ->; reflexivity | intros E; injection E; auto].
      * destruct (if (b <? a)%N then (b, a) else (a, b)) as [sr tr].
        destruct ((65 <=? sr)%N && (sr <=? 90)%N && N.eqb tr (sr + 32)%N) eqn:Ec.
        -- symmetry in Hstep. apply N.eqb_eq in Hstep.
           apply bool_decide_ext. rewrite Hstep.
           split; [intros ->; reflexivity | intros E; injection E; auto].
        -- symmetry in Hstep. apply N.eqb_neq in Hstep.
           symmetry. apply bool_decide_eq_false. intros E. injection E. auto.
Qed.

Lemma is_ascii_bytes (s : string) :
  is_ascii s = true -> Forall (fun c => (c < 128)%N) (bytes_of s).
Proof.
  unfold is_ascii. intros Hs. apply List.Forall_forall. intros c Hc.
  rewrite forallb_forall in Hs. apply N.ltb_lt. exact (Hs c Hc).
Qed.

Lemma lower_bytes_bound (b : list N) :
  Forall (fun c => (c < 128)%N) b -> Forall (fun c => (c < 128)%N) (map ascii_lower_byte b).
Proof.
  intros Hb. apply List.Forall_map. eapply List.Forall_impl; [| exact Hb].
  intros c Hc. pose proof (byte_facts_ok c c Hc Hc) as F. unfold byte_facts in F.
  apply andb_prop in F as [F _]. apply andb_prop in F as [_ F]. apply N.ltb_lt. exact F.
Qed.

Lemma ToLower_ascii (s : string) :
  is_ascii s = true -> bytes_of (ToLower s) = map ascii_lower_byte (bytes_of s).
Proof.
  intros Hs. unfold ToLower. rewrite Hs. apply bytes_of_string.
  eapply List.Forall_impl; [| exact (lower_bytes_bound _ (is_ascii_bytes s Hs))].
  intros c Hc. simpl in Hc. lia.
Qed.

(** For an ASCII string, [EqualFold] against an ASCII target is equality of
    the lower-cased forms. *)
Lemma EqualFold_ascii (s t : string) :
  is_ascii s = true -> is_ascii t = true ->
  EqualFold s t = String.eqb (ToLower s) (ToLower t).
Proof.
  intros Hs Ht. unfold EqualFold.
  rewrite (equal_fold_bytes_ascii _ _ (is_ascii_bytes s Hs) (is_ascii_bytes t Ht)).
  rewrite <- (ToLower_ascii s Hs), <- (ToLower_ascii t Ht).
  apply eq_true_iff_eq. rewrite bool_decide_eq_true, String.eqb_eq.
  split; [apply bytes_of_inj | intros ->; reflexivity].
Qed.

Lemma ToLower_ascii_upper (s : string) :
  is_ascii s = true -> ToLower (ascii_upper s) = ToLower s.
Proof.
  intros Hs. pose proof (is_ascii_bytes s Hs) as Hb.
  assert (Hu : bytes_of (ascii_upper s) = map ascii_upper_byte (bytes_of s)).
  { unfold ascii_upper. apply bytes_of_string. apply List.Forall_map.
    eapply List.Forall_impl; [| exact Hb]. intros c Hc.
    pose proof (byte_facts_ok c c Hc Hc) as F. unfold byte_facts in F.
    apply andb_prop in F as [_ F]. apply N.ltb_lt in F. lia. }
  assert (Hua : is_ascii (ascii_upper s) = true).
  { unfold is_ascii. rewrite Hu, forallb_forall. intros c Hc.
    apply in_map_iff in Hc as (c0 & <- & Hc0). apply List.Forall_forall with (x := c0) in Hb; [| exact Hc0].
    pose proof (byte_facts_ok c0 c0 Hb Hb) as F. unfold byte_facts in F.
    apply andb_prop in F as [_ F]. exact F. }
  apply bytes_of_inj. rewrite (ToLower_ascii _ Hua), (ToLower_ascii _ Hs), Hu, map_map.
  apply map_ext_in. intros c Hc. apply List.Forall_forall with (x := c) in Hb; [| exact Hc].
  pose proof (byte_facts_ok c c Hb Hb) as F. unfold byte_facts in F.
  apply andb_prop in F as [F _]. apply andb_prop in F as [F _].
  apply andb_prop in F as [_ F]. apply N.eqb_eq. exact F.
Qed.

Lemma allowed_set_spec (exts : list string) (k : string) :
  k ∈ Library.allowed_set exts <-> exists e, In e exts /\ ToLower e = k.
Proof.
  unfold Library.allowed_set.
  assert (G : forall acc : gset string,
            k ∈ fold_left (fun acc ext => {[ ToLower ext ]} ∪ acc) exts acc <->
            k ∈ acc \/ exists e, In e exts /\ ToLower e = k).
  { induction exts as [| x xs IH]; intros acc; simpl.
    - split; [auto | intros [Hk | (e & [] & _)]; exact Hk].
    - rewrite IH. split.
      + intros [Hk | (e & He & Hek)].
        * apply elem_of_union in Hk as [Hk | Hk].
          -- apply elem_of_singleton in Hk. right. exists x. auto.
          -- left. exact Hk.
        * right. exists e. auto.
      + intros [Hk | (e & [<- | He] & Hek)].
        * left. set_solver.
        * left. subst k. set_solver.
        * right. exists e. auto. }
  rewrite G. split; [intros [Hk | Hk]; [set_solver | exact Hk] | auto].
Qed.

End CaseFacts.

(* ================================================================== *)
(** ** Extension matching *)

(** C10: the accepted set holds the lower-cased configured extensions; a
    path qualifies exactly when the lower-cased form of its extension is in
    that set, both when a recompute decides to build a record for it and
    when an event is filtered; so changing the case of an ASCII extension
    does not change whether it qualifies; and the ".mp3" test of
    [BuildEpisode] is, on ASCII extensions, equality of lower-cased forms. *)
Theorem C10_extension_case `{UnicodeTables} :
  (forall (exts : list string) (k : string),
     k ∈ Library.allowed_set exts <-> exists e, In e exts /\ ToLower e = k) /\
  (forall (l : Library.Library) (p : string),
     Library.isAllowed l p = bool_decide (ToLower (Ext p) ∈ Library.allowed l)) /\
  (forall (l : Library.Library) (path n : string) (f : file_data) (st : list Episode * heap),
     Library.isAllowed l path = false ->
     Library.refresh_fn l path (Some (FileE n f)) None st = (st, WalkNil)) /\
  (forall (l : Library.Library) (path n : string) (f : file_data) (eps : list Episode)
          (h : heap) e h',
     Library.isAllowed l path = true ->
     BuildEpisode path (Library.root l) f h = inr (e, h') ->
     Library.refresh_fn l path (Some (FileE n f)) None (eps, h) = ((eps ++ [e], h'), WalkNil)) /\
  (forall (l : Library.Library) (ev : Library.Event) (is_dir : bool),
     snd (Library.handleEvent l ev is_dir) =
       negb (Z.eqb (Z.land (Library.Op ev)
         (Z.lor (Z.lor Library.Create Library.Write) (Z.lor Library.Remove Library.Rename))) 0)
       && (Library.isAllowed l (Library.Name ev)
           || negb (Z.eqb (Z.land (Library.Op ev) (Z.lor Library.Remove Library.Rename)) 0))) /\
  (forall (l : Library.Library) (p q : string),
     is_ascii (Ext p) = true -> Ext q = ascii_upper (Ext p) ->
     Library.isAllowed l q = Library.isAllowed l p) /\
  (forall path : string,
     is_ascii (Ext path) = true ->
     EqualFold (Ext path) ".mp3" = String.eqb (ToLower (Ext path)) ".mp3").
Proof.
  split; [exact allowed_set_spec |].
  split; [reflexivity |].
  split.
  { intros l path n f [eps h] Hal. unfold Library.refresh_fn. simpl. rewrite Hal. reflexivity. }
  split.
  { intros l path n f eps h e h' Hal Hb. unfold Library.refresh_fn. simpl. rewrite Hal, Hb.
    reflexivity. }
  split; [reflexivity |].
  split.
  { intros l p q Hp Hq. unfold Library.isAllowed. rewrite Hq, ToLower_ascii_upper by exact Hp.
    reflexivity. }
  intros path Hp. rewrite EqualFold_ascii by (exact Hp || reflexivity). reflexivity.
Qed.

Lemma C10_extension_case_witness :
  is_ascii (Ext "/srv/audio/a.mp3") = true /\
  Ext "/srv/audio/a.MP3" = ascii_upper (Ext "/srv/audio/a.mp3") /\
  Library.isAllowed (empty_library [".Mp3"]) "/srv/audio/a.MP3" =
    Library.isAllowed (empty_library [".Mp3"]) "/srv/audio/a.mp3" /\
  Library.isAllowed (empty_library [".Mp3"]) "/srv/audio/a.mp3" = true /\
  EqualFold (Ext "/srv/audio/a.mp3") ".mp3" =
    String.eqb (ToLower (Ext "/srv/audio/a.mp3")) ".mp3".
Proof.
  assert (Ha : is_ascii (Ext "/srv/audio/a.mp3") = true) by (vm_compute; reflexivity).
  assert (Hu : Ext "/srv/audio/a.MP3" = ascii_upper (Ext "/srv/audio/a.mp3"))
    by (vm_compute; reflexivity).
  split; [exact Ha |]. split; [exact Hu |].
  split; [exact (proj1 (proj2 (proj2 (proj2 (proj2 (proj2 C10_extension_case)))))
                   _ _ _ Ha Hu) |].
  split; [vm_compute; reflexivity |].
  exact (proj2 (proj2 (proj2 (proj2 (proj2 (proj2 C10_extension_case))))) _ Ha).
Defined.

(* ================================================================== *)
(** ** Ordering of the published catalog *)

Lemma bytes_ltb_asym (a b : list N) : bytes_ltb a b = true -> bytes_ltb b a = false.
Proof.
  revert b. induction a as [| x a IH]; intros [| y b]; simpl; try congruence.
  destruct (x <? y)%N eqn:Lxy.
  - intros _. apply N.ltb_lt in Lxy.
    destruct (y <? x)%N eqn:Lyx; [apply N.ltb_lt in Lyx; lia |].
    destruct (N.eqb y x) eqn:E; [apply N.eqb_eq in E; lia | reflexivity].
  - destruct (N.eqb x y) eqn:E; [| discriminate].
    apply N.eqb_eq in E. subst y. rewrite N.ltb_irrefl, N.eqb_refl. apply IH.
Qed.

Lemma bytes_ltb_total (a b : list N) : a <> b -> bytes_ltb a b = true \/ bytes_ltb b a = true.
Proof.
  revert b. induction a as [| x a IH]; intros [| y b] Hne; simpl; auto.
  - destruct (x <? y)%N eqn:Lxy; [auto |].
    destruct (N.eqb x y) eqn:E.
    + apply N.eqb_eq in E. subst y. rewrite N.ltb_irrefl, N.eqb_refl.
      apply IH. congruence.
    + right. apply N.ltb_ge in Lxy. apply N.eqb_neq in E.
      assert (y < x)%N by lia. apply N.ltb_lt in H. rewrite H. reflexivity.
Qed.

Lemma str_ltb_asym (s t : string) : str_ltb s t = true -> str_ltb t s = false.
Proof. apply bytes_ltb_asym. Qed.

Lemma str_ltb_total (s t : string) : s <> t -> str_ltb s t = true \/ str_ltb t s = true.
Proof. intros Hne. apply bytes_ltb_total. intros E. apply Hne, bytes_of_inj, E. Qed.

Section SortFacts.
Context {A : Type} (less : A -> A -> bool).
Hypothesis less_asym : forall a b, less a b = true -> less b a = false.

Lemma insert_stable_sorted (x : A) (l : list A) :
  Sorted (not_less less) l -> Sorted (not_less less) (insert_stable less x l).
Proof.
  induction 1 as [| y l Hl IH Hhd]; simpl.
  - repeat constructor.
  - destruct (less x y) eqn:Lxy.
    + constructor; [constructor; assumption |]. constructor. apply less_asym, Lxy.
    + constructor; [exact IH |].
      destruct l as [| z l]; simpl.
      * constructor. exact Lxy.
      * inversion Hhd; subst. destruct (less x z); constructor; assumption.
Qed.

Lemma insert_stable_perm (x : A) (l : list A) : Permutation (insert_stable less x l) (x :: l).
Proof.
  induction l as [| y l IH]; simpl; [reflexivity |].
  destruct (less x y); [reflexivity |].
  rewrite IH. apply perm_swap.
Qed.

Lemma SliceStable_sorted (l : list A) : Sorted (not_less less) (SliceStable less l).
Proof.
  unfold SliceStable.
  assert (G : forall acc, Sorted (not_less less) acc ->
            Sorted (not_less less) (fold_left (fun acc x => insert_stable less x acc) l acc)).
  { induction l as [| x l IH]; intros acc Hacc; simpl; [exact Hacc |].
    apply IH, insert_stable_sorted, Hacc. }
  apply G. constructor.
Qed.

Lemma SliceStable_perm (l : list A) : Permutation (SliceStable less l) l.
Proof.
  unfold SliceStable.
  assert (G : forall acc, Permutation (fold_left (fun acc x => insert_stable less x acc) l acc)
                                      (l ++ acc)).
  { induction l as [| x l IH]; intros acc; simpl; [reflexivity |].
    rewrite IH, insert_stable_perm. symmetry. apply Permutation_middle. }
  rewrite G, app_nil_r. reflexivity.
Qed.

End SortFacts.

Lemma episode_less_asym (a b : Episode) :
  Library.episode_less a b = true -> Library.episode_less b a = false.
Proof.
  unfold Library.episode_less.
  destruct (String.eqb (RelativePath a) (RelativePath b)) eqn:E.
  - apply String.eqb_eq in E. rewrite E, String.eqb_refl. apply str_ltb_asym.
  - rewrite String.eqb_sym, E. apply str_ltb_asym.
Qed.

Lemma not_less_path_order (a b : Episode) :
  not_less Library.episode_less a b -> path_order a b.
Proof.
  unfold not_less, Library.episode_less, path_order.
  destruct (String.eqb (RelativePath b) (RelativePath a)) eqn:E.
  - apply String.eqb_eq in E. intros Hf. right. auto.
  - intros Hr. left. apply String.eqb_neq in E.
    destruct (str_ltb_total (RelativePath a) (RelativePath b)) as [Hl | Hl];
      [congruence | exact Hl | congruence].
Qed.

(** C7: after a successful recompute, the published records are sorted by
    relative path, ties broken by file name, whatever the order the walk
    found them in; they are exactly the records the walk collected. *)
Theorem C7_published_sorted `{UnicodeTables} :
  forall (l : Library.Library) (fs : io_error + entry) (h : heap) l' h',
    Library.refresh l fs h = inr (l', h') ->
    Sorted path_order (Caller.published l' h') /\
    Permutation (Caller.published l' h') (fst (fst (Library.collect l fs h))).
Proof.
  intros l fs h l' h'. unfold Library.refresh.
  destruct (Library.collect l fs h) as [[eps h1] r].
  destruct (negb (is_nil r)); [discriminate |].
  pose proof (alloc_fresh h1 (CEpisodes (SliceStable Library.episode_less eps))) as [_ Ha].
  destruct (alloc h1 _) as [a h2]. simpl in Ha. subst h2.
  intros [= <- <-]. unfold Caller.published. simpl. rewrite lookup_insert_eq.
  split.
  - eapply Sorted_ind with (P := fun xs => Sorted path_order xs);
      [constructor | | apply SliceStable_sorted, episode_less_asym].
    intros x xs _ IH Hhd. constructor; [exact IH |].
    destruct Hhd; constructor. apply not_less_path_order. assumption.
  - apply SliceStable_perm.
Qed.

Lemma C7_published_sorted_witness :
  exists l' h', Library.refresh (empty_library [".wav"]) (inr nested_tree) ∅ = inr (l', h') /\
    map RelativePath (fst (fst (Library.collect (empty_library [".wav"]) (inr nested_tree) ∅)))
      = ["a/x.wav"; "a.wav"] /\
    map RelativePath (Caller.published l' h') = ["a.wav"; "a/x.wav"] /\
    Sorted path_order (Caller.published l' h').
Proof.
  eexists _, _. split; [vm_compute; reflexivity |].
  split; [vm_compute; reflexivity |].
  split; [vm_compute; reflexivity |].
  exact (proj1 (C7_published_sorted _ _ _ _ _ (eq_refl : Library.refresh (empty_library [".wav"]) (inr nested_tree) ∅ = _))).
Defined.

(* ================================================================== *)
(** ** Construction of the library *)

Section WalkFacts.
Context {S : Type} (fn : string -> option entry -> option io_error -> S -> S * walk_result).
Hypothesis fn_nil : forall p d e st, snd (fn p d e st) = WalkNil.

Lemma walkDir_nil (d : entry) : forall path st, snd (walkDir fn path d st) = WalkNil.
Proof.
  induction d as [n f | n ds re Hds] using entry_ind'; intros path st; simpl.
  - destruct (fn path (Some (FileE n f)) None st) as [st' r] eqn:E.
    pose proof (fn_nil path (Some (FileE n f)) None st) as Hr. rewrite E in Hr.
    simpl in Hr. subst r. reflexivity.
  - destruct (fn path (Some (DirE n ds re)) None st) as [st1 r1] eqn:E1.
    pose proof (fn_nil path (Some (DirE n ds re)) None st) as Hr. rewrite E1 in Hr.
    simpl in Hr. subst r1. simpl.
    destruct (match re with
              | Some e => fn path (Some (DirE n ds re)) (Some e) st1
              | None => (st1, WalkNil)
              end) as [st2 r2] eqn:E2.
    assert (r2 = WalkNil) as ->.
    { destruct re as [e |].
      - pose proof (fn_nil path (Some (DirE n ds (Some e))) (Some e) st1) as Hr2.
        rewrite E2 in Hr2. exact Hr2.
      - injection E2 as _ <-. reflexivity. }
    simpl. clear E1 E2. revert st2.
    induction Hds as [| d1 ds' Hd1 _ IH]; intros st2; simpl; [reflexivity |].
    destruct (walkDir fn (Join path (entry_name d1)) d1 st2) as [st3 r3] eqn:E3.
    pose proof (Hd1 (Join path (entry_name d1)) st2) as H3. rewrite E3 in H3.
    simpl in H3. subst r3. apply IH.
Qed.

Lemma WalkDir_nil (root : string) (fs : io_error + entry) (st : S) :
  snd (WalkDir fn root fs st) = WalkNil.
Proof.
  unfold WalkDir.
  destruct (match fs with
            | inl e => fn root None (Some e) st
            | inr d => walkDir fn root d st
            end) as [st' r] eqn:E.
  assert (r = WalkNil) as ->; [| reflexivity].
  destruct fs as [e | d].
  - pose proof (fn_nil root None (Some e) st) as Hr. rewrite E in Hr. exact Hr.
  - pose proof (walkDir_nil d root st) as Hr. rewrite E in Hr. exact Hr.
Qed.

End WalkFacts.

Section RefreshFacts.
Context `{UnicodeTables}.

Lemma refresh_fn_nil (l : Library.Library) p d e st :
  snd (Library.refresh_fn l p d e st) = WalkNil.
Proof.
  unfold Library.refresh_fn. destruct st as [eps h].
  destruct e; [reflexivity |]. destruct d as [d |]; [| reflexivity].
  destruct (IsDir d); [reflexivity |].
  destruct (negb (Library.isAllowed l p)); [reflexivity |].
  destruct d as [n f | n ds re]; [| reflexivity].
  destruct (BuildEpisode p (Library.root l) f h) as [| [ep h']]; reflexivity.
Qed.

Lemma refresh_succeeds (l : Library.Library) (fs : io_error + entry) (h : heap) :
  exists l' h', Library.refresh l fs h = inr (l', h').
Proof.
  unfold Library.refresh, Library.collect.
  pose proof (WalkDir_nil (Library.refresh_fn l) (refresh_fn_nil l) (Library.root l) fs ([], h)) as Hr.
  destruct (WalkDir (Library.refresh_fn l) (Library.root l) fs ([], h)) as [[eps h1] r].
  simpl in Hr. subst r. simpl.
  destruct (alloc h1 (CEpisodes (SliceStable Library.episode_less eps))) as [a h2]. eauto.
Qed.

End RefreshFacts.

(** C2 (refuted on the code): the initial recompute never fails, because
    the walk callback of [refresh] logs every walk error, the root's
    included, and returns nil; so once the notifier exists, [NewLibrary]
    always succeeds and starts its goroutine, and for a root [os.Lstat]
    cannot find it publishes an empty catalog instead of failing. *)
Theorem C2_construction_never_fails `{UnicodeTables} :
  (forall (root : string) (exts : list string) (fs : io_error + entry) (h : heap),
     Library.c_err (Library.NewLibrary None root exts fs h) = None /\
     Library.c_run_started (Library.NewLibrary None root exts fs h) = true) /\
  (forall (root : string) (exts : list string) (e : io_error) (h : heap),
     exists lib h', Library.NewLibrary None root exts (inl e) h =
                    Library.mkConstruction (Some lib) h' None true true /\
                    Caller.published lib h' = []).
Proof.
  split.
  - intros root exts fs h. unfold Library.NewLibrary.
    destruct (refresh_succeeds (Library.mkLibrary root (Library.allowed_set exts) None) fs h)
      as (l' & h' & ->).
    split; reflexivity.
  - intros root exts e h. unfold Library.NewLibrary, Library.refresh, Library.collect, WalkDir.
    simpl. eexists _, _. split; [reflexivity |].
    unfold Caller.published. simpl. unfold alloc. rewrite lookup_insert_eq. reflexivity.
Qed.

(* ================================================================== *)
(** ** Copies returned by ListEpisodes *)

(** C3 (refuted): writing through the artist pointer of a returned record
    changes the published catalog, and so what the next [ListEpisodes]
    returns. *)
Lemma C3_write_through_shared :
  exists r h1 h2,
    Library.ListEpisodes shared_library shared_heap = (r, h1) /\
    Caller.apply_writes r h1 [Caller.WriteThrough 0 Artist (CString "mutated")] = Some h2 /\
    Caller.published_view shared_library h2 <> Caller.published_view shared_library shared_heap /\
    (exists r' h3 xs, Library.ListEpisodes shared_library h2 = (r', h3) /\
       h3 !! r' = Some (CEpisodes xs) /\
       map (fun e => Caller.deref h3 (Artist e)) xs = [Some (CString "mutated")]).
Proof.
  eexists _, _, _. split; [vm_compute; reflexivity |].
  split; [vm_compute; reflexivity |].
  split; [vm_compute; intros [=] |].
  eexists _, _, _. split; [vm_compute; reflexivity |].
  split; vm_compute; reflexivity.
Qed.

Lemma apply_writes_slice (r : loc) (h1 : heap) (ws : list Caller.write) (h2 : heap) :
  forallb Caller.is_slice_write ws = true ->
  Caller.apply_writes r h1 ws = Some h2 ->
  forall p, p <> r -> h2 !! p = h1 !! p.
Proof.
  revert h1. induction ws as [| w ws IH]; intros h1 Hs Hw p Hp; simpl in *.
  - congruence.
  - apply andb_prop in Hs as [Hw1 Hs].
    destruct (Caller.apply_write r h1 w) as [h' |] eqn:E; [| discriminate].
    rewrite (IH h' Hs Hw p Hp).
    destruct w as [i f | i sel v]; [| discriminate].
    unfold Caller.apply_write in E.
    destruct (h1 !! r) as [[] |]; try discriminate.
    destruct (a !! i); [| discriminate].
    injection E as <-. apply lookup_insert_ne. congruence.
Qed.

(** C3 (as the code does it): [ListEpisodes] returns a new array, holding
    the published records, at a location not in use. Element and field
    assignments on it change no other location, so neither the published
    catalog nor any earlier copy; a write through one of the records'
    pointer fields writes the very location the published record points
    to. *)
Theorem C3_slice_copy_isolated :
  forall (l : Library.Library) (h : heap) (r : loc) (h1 : heap),
    Library.ListEpisodes l h = (r, h1) ->
    (r ∉ dom h) /\
    h1 !! r = Some (CEpisodes (Caller.published l h)) /\
    (forall (ws : list Caller.write) (h2 : heap),
       forallb Caller.is_slice_write ws = true ->
       Caller.apply_writes r h1 ws = Some h2 ->
       (forall p, p <> r -> h2 !! p = h !! p) /\
       (Caller.wf l h = true -> Caller.published_view l h2 = Caller.published_view l h)) /\
    (forall (i : nat) (sel : Episode -> option loc) (v : cell) (h2 : heap),
       Caller.apply_write r h1 (Caller.WriteThrough i sel v) = Some h2 ->
       exists e p, Caller.published l h !! i = Some e /\ sel e = Some p /\ h2 = <[ p := v ]> h1).
Proof.
  intros l h r h1 E.
  pose proof (alloc_fresh h (CEpisodes (Caller.published l h))) as [Fr Hh1].
  assert (Er : Library.ListEpisodes l h = alloc h (CEpisodes (Caller.published l h)))
    by reflexivity.
  rewrite Er in E. rewrite E in Fr, Hh1. simpl in Fr, Hh1. subst h1.
  assert (Hr : <[ r := CEpisodes (Caller.published l h) ]> h !! r =
               Some (CEpisodes (Caller.published l h))) by apply lookup_insert_eq.
  split; [exact Fr |]. split; [exact Hr |]. split.
  - intros ws h2 Hs Hw.
    assert (Hframe : forall p, p <> r -> h2 !! p = h !! p).
    { intros p Hp. rewrite (apply_writes_slice r _ ws h2 Hs Hw p Hp).
      apply lookup_insert_ne. congruence. }
    split; [exact Hframe |].
    intros Hwf. unfold Caller.wf in Hwf. apply andb_prop in Hwf as [Ha Hptrs].
    assert (Hne : forall p, p ∈ dom h -> p <> r) by (intros p Hp ->; contradiction).
    assert (Hpub : Caller.published l h2 = Caller.published l h).
    { unfold Caller.published. destruct (Library.episodes l) as [a |]; [| reflexivity].
      apply bool_decide_eq_true in Ha. rewrite (Hframe a (Hne a Ha)). reflexivity. }
    unfold Caller.published_view. rewrite Hpub.
    apply map_ext_in. intros e He.
    rewrite forallb_forall in Hptrs. specialize (Hptrs e He).
    assert (Hd : forall p, Caller.ptr_ok h p = true -> Caller.deref h2 p = Caller.deref h p).
    { intros [p |] Hp; [| reflexivity]. simpl in *. apply bool_decide_eq_true in Hp.
      apply Hframe, Hne, Hp. }
    apply andb_prop in Hptrs as [Hptrs Hb]. apply andb_prop in Hptrs as [Hptrs Hdu].
    apply andb_prop in Hptrs as [Har Hal].
    unfold Caller.view_episode. rewrite !Hd by assumption. reflexivity.
  - intros i sel v h2 Hw. unfold Caller.apply_write in Hw. rewrite Hr in Hw.
    destruct (Caller.published l h !! i) as [e |]; [| discriminate].
    destruct (sel e) as [p |] eqn:Es; [| discriminate].
    injection Hw as <-. eauto.
Qed.

Lemma C3_slice_copy_isolated_witness :
  exists r h1 h2,
    Library.ListEpisodes shared_library shared_heap = (r, h1) /\
    Caller.apply_writes r h1 [rename_first] = Some h2 /\
    Caller.published_view shared_library h2 = Caller.published_view shared_library shared_heap.
Proof.
  pose (p := Library.ListEpisodes shared_library shared_heap).
  assert (E : Library.ListEpisodes shared_library shared_heap = (fst p, snd p)) by reflexivity.
  destruct (C3_slice_copy_isolated _ _ _ _ E) as (_ & _ & Hs & _).
  assert (Ew : exists h2, Caller.apply_writes (fst p) (snd p) [rename_first] = Some h2)
    by (eexists; vm_compute; reflexivity).
  destruct Ew as [h2 Ew].
  exists (fst p), (snd p), h2. split; [exact E |]. split; [exact Ew |].
  apply (proj2 (Hs [rename_first] h2 eq_refl Ew)). vm_compute. reflexivity.
Defined.

(* ================================================================== *)
(** ** Further properties of the code *)

Lemma parse_tokens_fold (t : string) (lines : list string) (acc : gset string) :
  t ∈ fold_left (fun (acc : gset string) line =>
               let token := TrimSpace line in
               if String.eqb token EmptyString then acc else {[ token ]} ∪ acc) lines acc <->
  t ∈ acc \/ (t <> "" /\ exists line, In line lines /\ TrimSpace line = t).
Proof.
  revert acc. induction lines as [| l ls IH]; intros acc; simpl.
  - split; [auto | intros [? | (_ & ? & [] & _)]; auto].
  - rewrite IH. destruct (String.eqb (TrimSpace l) "") eqn:E.
    + apply String.eqb_eq in E. split.
      * intros [? | (? & line & ? & ?)]; [auto | right; eauto].
      * intros [? | (Ht & line & [<- | ?] & ?)]; [auto | congruence | right; eauto].
    + apply String.eqb_neq in E. rewrite elem_of_union, elem_of_singleton. split.
      * intros [[-> | ?] | (? & line & ? & ?)]; [right; eauto | auto | right; eauto].
      * intros [? | (Ht & line & [<- | ?] & ?)]; [auto | left; left; auto | right; eauto].
Qed.

Lemma parse_tokens_spec (data t : string) :
  t ∈ TokenStore.parse_tokens data <->
  t <> "" /\ exists line, In line (Split_lines data) /\ TrimSpace line = t.
Proof.
  unfold TokenStore.parse_tokens. rewrite parse_tokens_fold. set_solver.
Qed.

Lemma token_file_parse (data : string) (s : TokenStore.state) (t : string) :
  TokenStore.IsValidToken (fst (TokenStore.refresh (TokenStore.ReadOk data) s)) t = true <->
  TrimSpace t <> "" /\ exists line, In line (Split_lines data) /\ TrimSpace line = TrimSpace t.
Proof.
  unfold TokenStore.IsValidToken. simpl.
  destruct (String.eqb (TrimSpace t) "") eqn:E.
  - apply String.eqb_eq in E. split; [discriminate | intros [? _]; contradiction].
  - apply String.eqb_neq in E. rewrite bool_decide_eq_true, parse_tokens_spec. tauto.
Qed.

(** X1: after a successful read of the token file, a token is valid exactly when its trimmed form is not empty and equals the trimmed form of some line of the file. *)
Theorem tokens_after_refresh (data : string) (s : TokenStore.state) (t : string) :
  TokenStore.IsValidToken (fst (TokenStore.refresh (TokenStore.ReadOk data) s)) t = true <->
  TrimSpace t <> "" /\ exists line, In line (Split_lines data) /\ TrimSpace line = TrimSpace t.
Proof. exact (token_file_parse data s t). Qed.

Lemma bytes_of_app (a b : string) : bytes_of (a ++ b)%string = bytes_of a ++ bytes_of b.
Proof. induction a as [| c a IH]; simpl; [reflexivity |]. unfold bytes_of in *. simpl. now rewrite IH. Qed.

Lemma string_of_bytes_app (a b : list N) : string_of_bytes (a ++ b) = (string_of_bytes a ++ string_of_bytes b)%string.
Proof. induction a as [| c a IH]; simpl; [reflexivity |]. unfold string_of_bytes in *. simpl. now rewrite IH. Qed.

Lemma split_nl_no_nl (x : list N) : ~ In 10%N x -> split_nl x = [x].
Proof.
  induction x as [| c x IH]; intros Hx; simpl; [reflexivity |].
  destruct (N.eqb_spec c 10) as [-> | Hc]; [exfalso; apply Hx; left; reflexivity |].
  rewrite IH by (intros ?; apply Hx; right; assumption). reflexivity.
Qed.

Lemma split_nl_app (x y : list N) : ~ In 10%N x -> split_nl (x ++ 10%N :: y) = x :: split_nl y.
Proof.
  induction x as [| c x IH]; intros Hx; simpl; [reflexivity |].
  destruct (N.eqb_spec c 10) as [-> | Hc]; [exfalso; apply Hx; left; reflexivity |].
  rewrite IH by (intros ?; apply Hx; right; assumption). reflexivity.
Qed.

Lemma Split_lines_concat (ls : list string) :
  ls <> [] -> Forall (fun l => ~ In 10%N (bytes_of l)) ls ->
  Split_lines (String.concat nl ls) = ls.
Proof.
  intros Hne Hls. unfold Split_lines.
  destruct ls as [| l0 ls]; [congruence |].
  assert (G : split_nl (bytes_of (String.concat nl (l0 :: ls))) = map bytes_of (l0 :: ls)).
  { clear Hne. revert l0 Hls. induction ls as [| l ls IH]; intros l0 Hls.
    - simpl. apply split_nl_no_nl. now inversion Hls.
    - inversion Hls as [| ? ? Hl0 Hrest]; subst.
      change (String.concat nl (l0 :: l :: ls)) with (l0 ++ nl ++ String.concat nl (l :: ls))%string.
      rewrite !bytes_of_app. change (bytes_of nl ++ ?y) with (10%N :: y).
      rewrite split_nl_app by exact Hl0. rewrite IH by exact Hrest. reflexivity. }
  rewrite G, map_map. rewrite (map_ext _ id string_of_bytes_of), map_id. reflexivity.
Qed.

Lemma multibyte_spaces_nonempty (p : list N) : In p multibyte_spaces -> (1 <= List.length p)%nat.
Proof.
  unfold multibyte_spaces. intros Hp. repeat (apply in_app_or in Hp as [Hp | Hp]).
  - simpl in Hp. intuition subst; simpl; lia.
  - apply in_map_iff in Hp as (k & <- & _). simpl. lia.
  - simpl in Hp. intuition subst; simpl; lia.
Qed.

Lemma space_rune_prefix_some (s : list N) (w : nat) :
  space_rune_prefix s = Some w -> (1 <= w)%nat.
Proof.
  unfold space_rune_prefix. destruct s as [| c r]; [discriminate |].
  destruct (ascii_space c); [intros [= <-]; lia |].
  destruct (List.find _ _) as [p |] eqn:E; [| discriminate].
  intros [= <-]. apply find_some in E as [Hin _]. now apply multibyte_spaces_nonempty.
Qed.

Lemma space_rune_suffix_some (s : list N) (w : nat) :
  space_rune_suffix s = Some w -> (1 <= w)%nat.
Proof.
  unfold space_rune_suffix. destruct (rev s) as [| c r]; [discriminate |].
  destruct (ascii_space c); [intros [= <-]; lia |].
  destruct (List.find _ _) as [p |] eqn:E; [| discriminate].
  intros [= <-]. apply find_some in E as [Hin _]. now apply multibyte_spaces_nonempty.
Qed.

Lemma trim_left_space_none (fuel : nat) (s : list N) :
  (List.length s <= fuel)%nat -> space_rune_prefix (trim_left_space fuel s) = None.
Proof.
  revert s. induction fuel as [| f IH]; intros s Hs; simpl.
  - destruct s; [reflexivity | simpl in Hs; lia].
  - destruct (space_rune_prefix s) as [w |] eqn:E; [| exact E].
    apply IH. apply space_rune_prefix_some in E. rewrite length_drop. lia.
Qed.

Lemma trim_right_space_none (fuel : nat) (s : list N) :
  (List.length s <= fuel)%nat -> space_rune_suffix (trim_right_space fuel s) = None.
Proof.
  revert s. induction fuel as [| f IH]; intros s Hs; simpl.
  - destruct s; [reflexivity | simpl in Hs; lia].
  - destruct (space_rune_suffix s) as [w |] eqn:E; [| exact E].
    destruct s as [| c r]; [discriminate |].
    apply IH. apply space_rune_suffix_some in E. rewrite length_firstn. simpl in *. lia.
Qed.

Lemma trim_left_space_drop (fuel : nat) (s : list N) :
  exists k, trim_left_space fuel s = drop k s.
Proof.
  revert s. induction fuel as [| f IH]; intros s; simpl; [exists 0%nat; reflexivity |].
  destruct (space_rune_prefix s) as [w |]; [| exists 0%nat; reflexivity].
  destruct (IH (drop w s)) as [k ->]. exists (w + k)%nat. now rewrite drop_drop.
Qed.

Lemma trim_right_space_take (fuel : nat) (s : list N) :
  exists k, trim_right_space fuel s = take k s.
Proof.
  revert s. induction fuel as [| f IH]; intros s; simpl.
  - exists (List.length s). now rewrite firstn_all.
  - destruct (space_rune_suffix s) as [w |].
    + destruct (IH (take (List.length s - w) s)) as [k ->].
      exists (Nat.min k (List.length s - w)). now rewrite take_take.
    + exists (List.length s). now rewrite firstn_all.
Qed.

Lemma is_prefix_take (p l : list N) (n : nat) :
  is_prefix p (take n l) = true -> is_prefix p l = true.
Proof.
  revert l n. induction p as [| x p IH]; intros l n; [reflexivity |].
  destruct l as [| y l]; [now rewrite take_nil |].
  destruct n as [| n]; [discriminate |]. simpl.
  intros [Hx Hp]%andb_prop. rewrite Hx. simpl. eapply IH; exact Hp.
Qed.

Lemma space_rune_prefix_take (l : list N) (n : nat) :
  space_rune_prefix l = None -> space_rune_prefix (take n l) = None.
Proof.
  intros H.
  destruct l as [| c r]; [now rewrite take_nil |].
  destruct n as [| n]; [reflexivity |].
  unfold space_rune_prefix in *. change (take (S n) (c :: r)) with (c :: take n r). cbv beta iota in *.
  destruct (ascii_space c); [discriminate |].
  destruct (List.find (fun p => is_prefix p (c :: r)) multibyte_spaces) eqn:E; [discriminate |].
  destruct (List.find (fun p => is_prefix p (c :: take n r)) multibyte_spaces) as [p |] eqn:E2;
    [| reflexivity].
  apply find_some in E2 as [Hin Hp].
  change (c :: take n r) with (take (S n) (c :: r)) in Hp. apply is_prefix_take in Hp.
  exfalso. eapply find_none in E; [| exact Hin]. congruence.
Qed.

Lemma trim_left_space_fixed (fuel : nat) (s : list N) :
  space_rune_prefix s = None -> trim_left_space fuel s = s.
Proof. destruct fuel; simpl; [reflexivity |]. intros ->. reflexivity. Qed.

Lemma trim_right_space_fixed (fuel : nat) (s : list N) :
  space_rune_suffix s = None -> trim_right_space fuel s = s.
Proof. destruct fuel; simpl; [reflexivity |]. intros ->. reflexivity. Qed.

Lemma TrimSpace_bytes (s : string) :
  exists r, TrimSpace s = string_of_bytes r /\ bytes_of (TrimSpace s) = r /\
    space_rune_prefix r = None /\ space_rune_suffix r = None.
Proof.
  unfold TrimSpace.
  destruct (trim_left_space_drop (List.length (bytes_of s)) (bytes_of s)) as [j Hj].
  pose proof (trim_left_space_none (List.length (bytes_of s)) (bytes_of s) (le_n _)) as Hl.
  remember (trim_left_space (List.length (bytes_of s)) (bytes_of s)) as l eqn:El.
  destruct (trim_right_space_take (List.length l) l) as [k Hk].
  pose proof (trim_right_space_none (List.length l) l (le_n _)) as Hr.
  remember (trim_right_space (List.length l) l) as r eqn:Er.
  exists r. split; [reflexivity |].
  assert (Hb : Forall (fun c => (c < 256)%N) r).
  { rewrite Hk, Hj. apply Forall_take, Forall_drop, bytes_of_bound. }
  split; [now apply bytes_of_string |].
  split; [| exact Hr].
  rewrite Hk. now apply space_rune_prefix_take.
Qed.

(** [strings.TrimSpace] is idempotent. *)
Lemma TrimSpace_idem (s : string) : TrimSpace (TrimSpace s) = TrimSpace s.
Proof.
  destruct (TrimSpace_bytes s) as (r & E & Eb & Hp & Hs).
  unfold TrimSpace at 1. rewrite Eb.
  rewrite (trim_left_space_fixed _ _ Hp), (trim_right_space_fixed _ _ Hs). symmetry. exact E.
Qed.

Section ServerFacts.
Context `{UnicodeTables}.

Lemma extractToken_trimmed (r : Server.Request) :
  TrimSpace (Server.extractToken r) = Server.extractToken r.
Proof.
  unfold Server.extractToken.
  repeat match goal with
         | |- context [if ?b then _ else _] => destruct b
         | |- context [match ?o with Some _ => _ | None => _ end] => destruct o
         end; try apply TrimSpace_idem; reflexivity.
Qed.

Lemma extractToken_cases (r : Server.Request) :
  let q := TrimSpace (Server.values_get (Server.Query r) "token") in
  let x := TrimSpace (Server.values_get (Server.Header r) "X-Podcast-Token") in
  let a := TrimSpace (Server.values_get (Server.Header r) "Authorization") in
  TrimSpace (Server.extractToken r) = Server.extractToken r /\
  (q <> "" -> Server.extractToken r = q) /\
  (q = "" -> x <> "" -> Server.extractToken r = x) /\
  (q = "" -> x = "" -> Server.HasPrefix (ToLower a) "bearer " = true ->
     Server.extractToken r = TrimSpace (string_of_bytes (drop 7 (bytes_of a)))) /\
  (q = "" -> x = "" -> a = "" -> Server.extractToken r = "").
Proof.
  intros q x a. split; [apply extractToken_trimmed |].
  unfold Server.extractToken. cbv zeta. fold q x a.
  split; [intros Hq; apply String.eqb_neq in Hq; now rewrite Hq |].
  split; [intros -> Hx; apply String.eqb_neq in Hx; now rewrite Hx |].
  split.
  - intros -> -> Hb. simpl. destruct (String.eqb a "") eqn:Ea.
    + apply String.eqb_eq in Ea. rewrite Ea. reflexivity.
    + now rewrite Hb.
  - intros -> -> ->. reflexivity.
Qed.

(** X3: [extractToken] returns a trimmed token; the query parameter wins over the X-Podcast-Token header, which wins over a bearer Authorization header; with all three blank it returns the empty string. *)
Theorem extractToken_precedence (r : Server.Request) :
  let q := TrimSpace (Server.values_get (Server.Query r) "token") in
  let x := TrimSpace (Server.values_get (Server.Header r) "X-Podcast-Token") in
  let a := TrimSpace (Server.values_get (Server.Header r) "Authorization") in
  TrimSpace (Server.extractToken r) = Server.extractToken r /\
  (q <> "" -> Server.extractToken r = q) /\
  (q = "" -> x <> "" -> Server.extractToken r = x) /\
  (q = "" -> x = "" -> Server.HasPrefix (ToLower a) "bearer " = true ->
     Server.extractToken r = TrimSpace (string_of_bytes (drop 7 (bytes_of a)))) /\
  (q = "" -> x = "" -> a = "" -> Server.extractToken r = "").
Proof. exact (extractToken_cases r). Qed.

Lemma requireToken_cases (s : TokenStore.state) (r : Server.Request) :
  Server.requireToken (Server.main_validator true s) r =
    (if String.eqb (Server.extractToken r) "" then Some ("", false)
     else if bool_decide (Server.extractToken r ∈ TokenStore.tokens s)
          then Some (Server.extractToken r, true) else Some ("", false)) /\
  Server.requireToken (Server.main_validator false s) r =
    (if String.eqb (Server.extractToken r) "" then Some ("", false) else None).
Proof.
  unfold Server.requireToken, Server.main_validator, Server.IsValidToken_ptr, TokenStore.IsValidToken.
  rewrite !extractToken_trimmed.
  destruct (String.eqb (Server.extractToken r) "") eqn:E; [split; reflexivity |].
  split; [| reflexivity].
  destruct (bool_decide _); reflexivity.
Qed.

(** X4: with the validator [main] builds, a request whose token is empty is refused; with a token store, a non-empty token is accepted exactly when it is in the store; without one (a nil *TokenStore) a non-empty token panics. *)
Theorem requireToken_main (s : TokenStore.state) (r : Server.Request) :
  Server.requireToken (Server.main_validator true s) r =
    (if String.eqb (Server.extractToken r) "" then Some ("", false)
     else if bool_decide (Server.extractToken r ∈ TokenStore.tokens s)
          then Some (Server.extractToken r, true) else Some ("", false)) /\
  Server.requireToken (Server.main_validator false s) r =
    (if String.eqb (Server.extractToken r) "" then Some ("", false) else None).
Proof. exact (requireToken_cases s r). Qed.

(** X5: a GET of the episode list with no query token, no X-Podcast-Token and no Authorization header gets 401, whatever cookie it carries. *)
Theorem cookie_alone_refused (s : TokenStore.state) (r : Server.Request) :
  Server.Method r = "GET" ->
  TrimSpace (Server.values_get (Server.Query r) "token") = "" ->
  TrimSpace (Server.values_get (Server.Header r) "X-Podcast-Token") = "" ->
  TrimSpace (Server.values_get (Server.Header r) "Authorization") = "" ->
  Server.handleEpisodes (Server.main_validator true s) r = Server.Status 401.
Proof.
  intros Hm Hq Hx Ha.
  pose proof (extractToken_cases r) as (_ & _ & _ & _ & He). cbv zeta in He.
  unfold Server.handleEpisodes. rewrite Hm.
  rewrite (proj1 (requireToken_cases s r)), (He Hq Hx Ha). reflexivity.
Qed.

End ServerFacts.

Lemma cookie_alone_refused_witness :
  Server.Cookie cookie_request Server.authCookieName = Some "alpha" /\
  TokenStore.IsValidToken (TokenStore.mkState {[ "alpha" ]}) "alpha" = true /\
  Server.handleEpisodes (Server.main_validator true (TokenStore.mkState {[ "alpha" ]})) cookie_request
    = Server.Status 401.
Proof.
  split; [reflexivity |]. split; [vm_compute; reflexivity |].
  apply cookie_alone_refused; vm_compute; reflexivity.
Defined.

Lemma digits_value_fold (l : list N) (a : Z) :
  fold_left digit_step l a = a * 10 ^ Z.of_nat (List.length l) + fold_left digit_step l 0.
Proof.
  revert a. induction l as [| c l IH]; intros a; cbn [fold_left List.length]; [simpl; lia |].
  rewrite (IH (digit_step a c)), (IH (digit_step 0 c)). unfold digit_step.
  rewrite Nat2Z.inj_succ, Z.pow_succ_r by lia. lia.
Qed.

Lemma digits_value_cons (c : N) (l : list N) :
  Config.digits_value (c :: l) = Z.of_N (c - 48) * 10 ^ Z.of_nat (List.length l) + Config.digits_value l.
Proof.
  unfold Config.digits_value. fold digit_step. cbn [fold_left]. rewrite digits_value_fold.
  unfold digit_step. lia.
Qed.

Lemma digits_value_app (l1 l2 : list N) :
  Config.digits_value (l1 ++ l2) =
  Config.digits_value l1 * 10 ^ Z.of_nat (List.length l2) + Config.digits_value l2.
Proof.
  unfold Config.digits_value. fold digit_step. rewrite fold_left_app, digits_value_fold. reflexivity.
Qed.

Lemma digits_aux_spec (fuel : nat) (n : Z) (acc : list N) :
  0 <= n < 10 ^ Z.of_nat fuel ->
  Config.digits_value (Server.digits_aux fuel n acc) =
    n * 10 ^ Z.of_nat (List.length acc) + Config.digits_value acc /\
  (Forall (fun c => Config.is_digit c = true) acc ->
   Forall (fun c => Config.is_digit c = true) (Server.digits_aux fuel n acc)) /\
  ((1 <= fuel)%nat -> (S (List.length acc) <= List.length (Server.digits_aux fuel n acc))%nat) /\
  (10 <= n -> (S (S (List.length acc)) <= List.length (Server.digits_aux fuel n acc))%nat) /\
  (forall m : nat, n < 10 ^ Z.of_nat m -> (1 <= m)%nat ->
     (List.length (Server.digits_aux fuel n acc) <= m + List.length acc)%nat).
Proof.
  revert n acc. induction fuel as [| f IH]; intros n acc Hn.
  - simpl in Hn. simpl. split; [lia |]. split; [auto |]. split; [lia |]. split; [lia |].
    intros m _ _. lia.
  - rewrite Nat2Z.inj_succ, Z.pow_succ_r in Hn by lia.
    assert (Hd : Z.of_N (48 + Z.to_N (n mod 10) - 48) = n mod 10).
    { rewrite N.add_comm, N.add_sub. rewrite Z2N.id; [reflexivity |]. apply Z.mod_pos_bound. lia. }
    assert (Hdig : Config.is_digit (48 + Z.to_N (n mod 10)) = true).
    { unfold Config.is_digit. pose proof (Z.mod_pos_bound n 10). apply andb_true_intro. split; apply N.leb_le; lia. }
    cbn [Server.digits_aux]. destruct (Z.ltb_spec n 10) as [Hlt | Hge].
    + split.
      * rewrite digits_value_cons, Hd, Z.mod_small by lia. reflexivity.
      * split; [intros Ha; constructor; assumption |]. simpl. split; [lia |]. split; [lia |].
        intros m _ Hm. lia.
    + assert (Hq : 0 <= n / 10 < 10 ^ Z.of_nat f).
      { split; [apply Z.div_pos; lia |]. apply Z.div_lt_upper_bound; lia. }
      destruct (IH (n / 10) (48 + Z.to_N (n mod 10) :: acc)%N Hq) as (Hv & Hf & Hl1 & Hl2 & Hl3).
      assert (Hf1 : (1 <= f)%nat).
      { destruct f; [simpl in Hq; assert (n / 10 >= 1) by (apply Z.le_ge, Z.div_le_lower_bound; lia); lia | lia]. }
      split.
      * rewrite Hv, digits_value_cons, Hd. simpl List.length. rewrite Nat2Z.inj_succ, Z.pow_succ_r by lia.
        pose proof (Z.div_mod n 10). lia.
      * split; [intros Ha; apply Hf; constructor; assumption |].
        split; [intros _; specialize (Hl1 Hf1); simpl in Hl1; lia |].
        split; [intros _; specialize (Hl1 Hf1); simpl in Hl1; lia |].
        intros m Hm Hm1. destruct m as [| m]; [lia |].
        destruct m as [| m].
        { simpl in Hm. lia. }
        assert (Hqm : n / 10 < 10 ^ Z.of_nat (S m)).
        { apply Z.div_lt_upper_bound; [lia |]. rewrite <- Z.pow_succ_r by lia. rewrite <- Nat2Z.inj_succ. exact Hm. }
        specialize (Hl3 (S m) Hqm ltac:(lia)). simpl in Hl3. lia.
Qed.

Lemma digits_fuel (n : Z) : 0 <= n -> n < 10 ^ Z.of_nat (S (Z.to_nat (Z.log2 n))).
Proof.
  intros Hn. rewrite Nat2Z.inj_succ, Z2Nat.id by apply Z.log2_nonneg.
  destruct (Z.eq_dec n 0) as [-> | Hn0]; [simpl; lia |].
  pose proof (Z.log2_spec n ltac:(lia)) as [_ H2].
  eapply Z.lt_le_trans; [exact H2 |].
  apply Z.pow_le_mono_l. lia.
Qed.

Lemma digits_spec (n : Z) :
  0 <= n ->
  Forall (fun c => Config.is_digit c = true) (Server.digits n) /\
  Config.digits_value (Server.digits n) = n /\
  (1 <= List.length (Server.digits n))%nat /\
  (10 <= n -> (2 <= List.length (Server.digits n))%nat) /\
  (n < 100 -> (List.length (Server.digits n) <= 2)%nat) /\
  (n < 10 -> (List.length (Server.digits n) <= 1)%nat).
Proof.
  intros Hn. unfold Server.digits.
  destruct (digits_aux_spec (S (Z.to_nat (Z.log2 n))) n [] (conj Hn (digits_fuel n Hn)))
    as (Hv & Hf & Hl1 & Hl2 & Hl3).
  split; [apply Hf; constructor |]. split; [rewrite Hv; change (Config.digits_value []) with 0; change (Z.of_nat (List.length (@nil N))) with 0; lia |].
  split; [specialize (Hl1 ltac:(lia)); cbn [List.length] in Hl1; lia |].
  split; [intros H10; specialize (Hl2 H10); cbn [List.length] in Hl2; lia |].
  split.
  - intros H100. specialize (Hl3 2%nat ltac:(cbn; lia) ltac:(lia)). cbn [List.length] in Hl3. lia.
  - intros H10. specialize (Hl3 1%nat ltac:(cbn; lia) ltac:(lia)). cbn [List.length] in Hl3. lia.
Qed.

Lemma pad02_spec (n : Z) :
  0 <= n ->
  exists ds, Server.pad02 n = string_of_bytes ds /\
    Forall (fun c => Config.is_digit c = true) ds /\ Config.digits_value ds = n /\
    (2 <= List.length ds)%nat /\ (n < 100 -> List.length ds = 2%nat).
Proof.
  intros Hn. destruct (digits_spec n Hn) as (Hf & Hv & Hl1 & Hl2 & Hl3 & Hl4).
  unfold Server.pad02. destruct (Z.ltb_spec n 0) as [? | _]; [lia |].
  destruct (Z.ltb_spec n 10) as [Hlt | Hge].
  - exists (48%N :: Server.digits n). split; [reflexivity |].
    split; [constructor; [reflexivity | exact Hf] |].
    split; [rewrite digits_value_cons, Hv; change (48 - 48)%N with 0%N; lia |].
    cbn [List.length]. split; [lia |]. intros _. specialize (Hl4 Hlt). lia.
  - exists (Server.digits n). split; [reflexivity |]. split; [exact Hf |]. split; [exact Hv |].
    split; [apply Hl2; lia |]. intros H100. specialize (Hl2 ltac:(lia)). specialize (Hl3 H100). lia.
Qed.

Lemma append_nonempty_r (a : string) (c : ascii) (b : string) : (a ++ String c b)%string <> "".
Proof. destruct a; simpl; discriminate. Qed.

(** X6: [formatDuration] is empty exactly for durations at most zero; otherwise, when the rounded second count is not negative, it is hh:mm:ss with at least two hour digits, minutes and seconds below 60, and the parts add up to the rounded count. *)
Theorem formatDuration_clock (seconds : float) :
  (Server.formatDuration seconds = "" <-> PrimFloat.leb seconds fzero = true) /\
  (PrimFloat.leb seconds fzero = false ->
   0 <= Server.int64_of_float (PrimFloat.add seconds Server.half) ->
   exists hh mm ss,
     Server.formatDuration seconds = string_of_bytes (hh ++ [58%N] ++ mm ++ [58%N] ++ ss) /\
     Forall (fun c => Config.is_digit c = true) (hh ++ mm ++ ss) /\
     (2 <= List.length hh)%nat /\ List.length mm = 2%nat /\ List.length ss = 2%nat /\
     Config.digits_value mm < 60 /\ Config.digits_value ss < 60 /\
     Config.digits_value hh * 3600 + Config.digits_value mm * 60 + Config.digits_value ss
       = Server.int64_of_float (PrimFloat.add seconds Server.half)).
Proof.
  split.
  - unfold Server.formatDuration. destruct (PrimFloat.leb seconds fzero).
    + split; reflexivity.
    + split; [intros E; exfalso; exact (append_nonempty_r _ _ _ E) | discriminate].
  - intros Hpos Ht. unfold Server.formatDuration. rewrite Hpos.
    set (t := Server.int64_of_float (PrimFloat.add seconds Server.half)) in *.
    rewrite Z.quot_div_nonneg, !Z.rem_mod_nonneg by lia.
    rewrite Z.quot_div_nonneg by (try apply Z.mod_pos_bound; lia).
    pose proof (Z.mod_pos_bound t 3600 ltac:(lia)).
    pose proof (Z.mod_pos_bound t 60 ltac:(lia)).
    assert (0 <= t / 3600) by (apply Z.div_pos; lia).
    assert (0 <= t mod 3600 / 60 < 60) by (split; [apply Z.div_pos | apply Z.div_lt_upper_bound]; lia).
    destruct (pad02_spec (t / 3600)) as (hh & Eh & Fh & Vh & Lh & _); [lia |].
    destruct (pad02_spec (t mod 3600 / 60)) as (mm & Em & Fm & Vm & _ & Lm); [lia |].
    destruct (pad02_spec (t mod 60)) as (ss & Es & Fs & Vs & _ & Ls); [lia |].
    exists hh, mm, ss. rewrite Eh, Em, Es.
    split; [rewrite !string_of_bytes_app; reflexivity |].
    split; [apply Forall_app; split; [exact Fh | apply Forall_app; split; assumption] |].
    split; [exact Lh |]. split; [apply Lm; lia |]. split; [apply Ls; lia |].
    rewrite Vh, Vm, Vs. split; [lia |]. split; [lia |].
    pose proof (Z.div_mod t 3600 ltac:(lia)).
    pose proof (Z.div_mod (t mod 3600) 60 ltac:(lia)).
    pose proof (Z.div_mod t 60 ltac:(lia)).
    assert (E60 : (t mod 3600) mod 60 = t mod 60).
    { apply Z.mod_mod_divide. exists 60. reflexivity. }
    lia.
Qed.

Lemma formatDuration_clock_witness :
  Server.formatDuration (float_of_int64 3725) = "01:02:05" /\
  exists hh mm ss,
    Server.formatDuration (float_of_int64 3725) = string_of_bytes (hh ++ [58%N] ++ mm ++ [58%N] ++ ss) /\
    List.length mm = 2%nat.
Proof.
  split; [vm_compute; reflexivity |].
  destruct (proj2 (formatDuration_clock (float_of_int64 3725)) ltac:(vm_compute; reflexivity)
              ltac:(vm_compute; discriminate)) as (hh & mm & ss & E & _ & _ & Lm & _).
  exists hh, mm, ss. split; [exact E | exact Lm].
Defined.

Lemma is_digit_cases (c : N) :
  Config.is_digit c = true ->
  c = 48%N \/ c = 49%N \/ c = 50%N \/ c = 51%N \/ c = 52%N \/
  c = 53%N \/ c = 54%N \/ c = 55%N \/ c = 56%N \/ c = 57%N.
Proof.
  unfold Config.is_digit. intros [H1 H2]%andb_prop.
  apply N.leb_le in H1. apply N.leb_le in H2. lia.
Qed.

Lemma digit_prefix_none (c : N) (r : list N) :
  Config.is_digit c = true -> space_rune_prefix (c :: r) = None.
Proof.
  intros Hc. apply is_digit_cases in Hc.
  repeat destruct Hc as [-> | Hc]; [.. | subst c]; reflexivity.
Qed.

Lemma digit_suffix_none (c : N) (r : list N) :
  Config.is_digit c = true -> space_rune_suffix (r ++ [c]) = None.
Proof.
  intros Hc. unfold space_rune_suffix. rewrite rev_unit.
  apply is_digit_cases in Hc.
  repeat destruct Hc as [-> | Hc]; [.. | subst c]; reflexivity.
Qed.

Lemma digits_bound (ds : list N) :
  Forall (fun c => Config.is_digit c = true) ds -> Forall (fun c => (c < 256)%N) ds.
Proof.
  intros H. eapply Forall_impl; [exact H |]. intros c Hc. apply is_digit_cases in Hc. lia.
Qed.

Lemma TrimSpace_digits (ds : list N) :
  Forall (fun c => Config.is_digit c = true) ds ->
  TrimSpace (string_of_bytes ds) = string_of_bytes ds.
Proof.
  intros Hd. unfold TrimSpace. rewrite bytes_of_string by now apply digits_bound.
  destruct ds as [| c r]; [reflexivity |].
  rewrite trim_left_space_fixed by (apply digit_prefix_none; now inversion Hd).
  destruct (exists_last (l := c :: r) ltac:(discriminate)) as (r' & c' & E).
  rewrite trim_right_space_fixed; [reflexivity |].
  rewrite E. apply digit_suffix_none.
  rewrite E in Hd. apply Forall_app in Hd as [_ Hd]. now inversion Hd.
Qed.

Lemma Atoi_digits (ds : list N) :
  ds <> [] -> Forall (fun c => Config.is_digit c = true) ds ->
  Config.digits_value ds < 2 ^ 63 ->
  Config.Atoi (string_of_bytes ds) = Some (Config.digits_value ds).
Proof.
  intros Hne Hd Hv. unfold Config.Atoi.
  rewrite bytes_of_string by now apply digits_bound.
  assert (Hv0 : 0 <= Config.digits_value ds).
  { clear. unfold Config.digits_value. fold digit_step.
    assert (G : forall l a, 0 <= a -> 0 <= fold_left digit_step l a).
    { induction l as [| c l IH]; intros a Ha; simpl; [lia |]. apply IH. unfold digit_step. lia. }
    apply G. lia. }
  assert (Hall : forallb Config.is_digit ds = true) by now apply List.forallb_forall, List.Forall_forall.
  destruct ds as [| c r]; [congruence |].
  inversion Hd as [| ? ? Hc _]; subst.
  apply is_digit_cases in Hc.
  repeat destruct Hc as [-> | Hc]; [.. | subst c];
    cbv zeta; cbn iota beta; rewrite Hall; simpl negb; cbn iota;
    match goal with |- context [Z.leb MinInt64 ?v] =>
      destruct (Z.leb_spec MinInt64 v); [| unfold MinInt64 in *; lia];
      destruct (Z.ltb_spec v (2 ^ 63)); [| lia]; reflexivity
    end.
Qed.

(** X7: [RefreshDebounce] falls back to 500ms for a value that does not parse or is negative; a decimal count n of milliseconds gives n ms up to 9223372036854, and a negative duration (int64 wrap-around) from 9223372036855 to 18446744073709. *)
Theorem RefreshDebounce_values (env : string) (n : Z) :
  (Config.Atoi (TrimSpace env) = None -> Config.RefreshDebounce env = 500 * Config.Millisecond) /\
  (forall ms, Config.Atoi (TrimSpace env) = Some ms -> ms < 0 ->
     Config.RefreshDebounce env = 500 * Config.Millisecond) /\
  (0 <= n <= 9223372036854 ->
     Config.RefreshDebounce (string_of_bytes (Server.digits n)) = n * Config.Millisecond) /\
  (9223372036855 <= n <= 18446744073709 ->
     Config.RefreshDebounce (string_of_bytes (Server.digits n)) < 0).
Proof.
  assert (Hdef : forall ms, Config.Atoi (TrimSpace env) = ms ->
            (forall v, ms = Some v -> v < 0) ->
            Config.RefreshDebounce env = 500 * Config.Millisecond).
  { intros ms Ha Hneg. unfold Config.RefreshDebounce.
    destruct (String.eqb (TrimSpace env) ""); [reflexivity |].
    rewrite Ha. destruct ms as [v |]; [| reflexivity].
    destruct (Z.ltb_spec v 0) as [| Hv]; [reflexivity |]. specialize (Hneg v eq_refl). lia. }
  split; [intros Ha; apply (Hdef None Ha); discriminate |].
  split; [intros ms Ha Hms; apply (Hdef (Some ms) Ha); intros v [= <-]; exact Hms |].
  assert (Hn : forall n, 0 <= n < 2 ^ 63 ->
            Config.RefreshDebounce (string_of_bytes (Server.digits n)) = Config.wrap64 (n * Config.Millisecond)).
  { intros m Hm. destruct (digits_spec m ltac:(lia)) as (Hf & Hv & Hl1 & _).
    unfold Config.RefreshDebounce. rewrite TrimSpace_digits by exact Hf.
    assert (Hne : Server.digits m <> []) by (intros E; rewrite E in Hl1; simpl in Hl1; lia).
    destruct (String.eqb (string_of_bytes (Server.digits m)) "") eqn:E.
    { apply String.eqb_eq in E. exfalso. apply Hne.
      destruct (Server.digits m); [reflexivity | discriminate]. }
    rewrite Atoi_digits, Hv by (try rewrite Hv; lia || assumption).
    destruct (Z.ltb_spec m 0); [lia | reflexivity]. }
  split.
  - intros Hr. rewrite Hn by lia. unfold Config.wrap64, Config.Millisecond.
    rewrite Z.mod_small by lia. lia.
  - intros Hr. rewrite Hn by lia. unfold Config.wrap64, Config.Millisecond.
    rewrite <- (Z.mod_unique (n * 1000000 + 2 ^ 63) (2 ^ 64) 1 (n * 1000000 + 2 ^ 63 - 2 ^ 64)); lia.
Qed.

Lemma override_first (v d : string) : Config.override v d = first_nonblank [v] d.
Proof.
  unfold Config.override, first_nonblank. simpl.
  destruct (String.eqb (TrimSpace v) ""); reflexivity.
Qed.

Lemma override_first2 (v w d : string) :
  Config.override v (Config.override w d) = first_nonblank [v; w] d.
Proof.
  unfold Config.override, first_nonblank. simpl.
  destruct (String.eqb (TrimSpace v) ""); destruct (String.eqb (TrimSpace w) ""); reflexivity.
Qed.

Lemma first_nonblank_nonempty (vs : list string) (d : string) :
  d <> "" -> first_nonblank vs d <> "".
Proof.
  unfold first_nonblank. intros Hd.
  destruct (List.find _ vs) as [v |] eqn:E; [| exact Hd].
  apply find_some in E as [_ E]. apply negb_true_iff, String.eqb_neq in E. exact E.
Qed.

(** X8: [ResolveFeedMetadata] fails exactly when a config path is set and its file cannot be loaded; otherwise each field is the first non-blank of the environment variable, the file's value and the default, and title, description and language are never empty. *)
Theorem ResolveFeedMetadata_layers (getenv : string -> string)
    (load : string -> option Config.FeedMetadata) :
  let cfg := TrimSpace (getenv "PODCAST_FEED_CONFIG") in
  let file := if String.eqb cfg "" then []
              else match load cfg with Some y => [y] | None => [] end in
  (Config.ResolveFeedMetadata getenv load = None <-> cfg <> "" /\ load cfg = None) /\
  (forall meta, Config.ResolveFeedMetadata getenv load = Some meta ->
     Config.FTitle meta =
       first_nonblank (getenv "PODCAST_FEED_TITLE" :: map Config.FTitle file) Config.defaultFeedTitle /\
     Config.FDescription meta =
       first_nonblank (getenv "PODCAST_FEED_DESCRIPTION" :: map Config.FDescription file)
                      Config.defaultFeedDescription /\
     Config.FLanguage meta =
       first_nonblank (getenv "PODCAST_FEED_LANGUAGE" :: map Config.FLanguage file)
                      Config.defaultFeedLanguage /\
     Config.FAuthor meta =
       first_nonblank (getenv "PODCAST_FEED_AUTHOR" :: map Config.FAuthor file) "" /\
     Config.FTitle meta <> "" /\ Config.FDescription meta <> "" /\ Config.FLanguage meta <> "").
Proof.
  intros cfg file. unfold Config.ResolveFeedMetadata. fold cfg.
  assert (Hne : forall vs d, d <> "" -> first_nonblank vs d <> "") by exact first_nonblank_nonempty.
  unfold file. destruct (String.eqb cfg "") eqn:Ec; simpl negb; cbn iota.
  - apply String.eqb_eq in Ec.
    split; [split; [discriminate | intros [? _]; contradiction] |].
    intros meta [= <-]. simpl. rewrite !override_first.
    repeat split; apply Hne; discriminate.
  - apply String.eqb_neq in Ec.
    destruct (load cfg) as [y |].
    + split; [split; [discriminate | intros [_ ?]; discriminate] |].
      intros meta [= <-]. simpl. rewrite !override_first2.
      repeat split; apply Hne; discriminate.
    + split; [split; [intros _; auto | reflexivity] |]. intros meta [=].
Qed.

Lemma alloc_subseteq (h : heap) (c : cell) : h ⊆ snd (alloc h c).
Proof.
  unfold alloc. simpl. apply insert_subseteq. apply not_elem_of_dom. apply is_fresh.
Qed.

Lemma alloc_lookup (h : heap) (c : cell) : snd (alloc h c) !! fst (alloc h c) = Some c.
Proof. unfold alloc. simpl. apply lookup_insert_eq. Qed.

Lemma optionalString_spec (h : heap) (v : string) :
  h ⊆ snd (optionalString h v) /\
  match fst (optionalString h v) with
  | Some p => TrimSpace v <> "" /\ (p ∉ dom h) /\ snd (optionalString h v) !! p = Some (CString (TrimSpace v))
  | None => TrimSpace v = "" /\ snd (optionalString h v) = h
  end.
Proof.
  unfold optionalString. destruct (String.eqb (TrimSpace v) "") eqn:E.
  - apply String.eqb_eq in E. simpl. split; [reflexivity | auto].
  - apply String.eqb_neq in E.
    pose proof (alloc_subseteq h (CString (TrimSpace v))) as Hs.
    pose proof (alloc_lookup h (CString (TrimSpace v))) as Hl.
    pose proof (alloc_fresh h (CString (TrimSpace v))) as [Hf _].
    destruct (alloc h (CString (TrimSpace v))) as [p h1]. simpl in *. auto.
Qed.

(** The tag values as [BuildEpisode] reads them, when [readTags] gets that far. *)
Lemma readTags_spec (h : heap) (f : file_data) :
  h ⊆ snd (readTags h f) /\
  match raw_tags f with
  | Some (t, ar, al) =>
      let '(title, a, b, h1) := readTags h f in
      title = TrimSpace t /\
      match a with
      | Some p => TrimSpace ar <> "" /\ (p ∉ dom h) /\ h1 !! p = Some (CString (TrimSpace ar))
      | None => TrimSpace ar = ""
      end /\
      match b with
      | Some p => TrimSpace al <> "" /\ (p ∉ dom h) /\ h1 !! p = Some (CString (TrimSpace al)) /\
                  a <> Some p
      | None => TrimSpace al = ""
      end
  | None => readTags h f = ("", None, None, h)
  end.
Proof.
  unfold raw_tags, readTags. destruct (fd_open f); simpl negb; cbn iota; [| split; reflexivity].
  destruct (fd_tags f) as [[[t ar] al] |]; [| split; reflexivity].
  destruct (optionalString_spec h ar) as [S1 P1].
  destruct (optionalString h ar) as [a h1] eqn:E1.
  destruct (optionalString_spec h1 al) as [S2 P2].
  destruct (optionalString h1 al) as [b h2] eqn:E2. simpl in *.
  split; [etransitivity; eassumption |].
  split; [reflexivity |].
  assert (Hdom : forall p, p ∉ dom h1 -> p ∉ dom h).
  { intros p Hp Hh. apply Hp. apply elem_of_dom in Hh as [c Hc].
    apply elem_of_dom. exists c. eapply lookup_weaken; eassumption. }
  split.
  - destruct a as [p |]; [| exact (proj1 P1)].
    destruct P1 as (Hne & Hf & Hl). split; [exact Hne |]. split; [exact Hf |].
    exact (lookup_weaken h1 h2 p _ Hl S2).
  - destruct b as [p |]; [| exact (proj1 P2)].
    destruct P2 as (Hne & Hf & Hl). split; [exact Hne |]. split; [apply Hdom, Hf |].
    split; [exact Hl |]. intros ->. destruct P1 as (_ & _ & Hl1). apply Hf.
    apply elem_of_dom. eexists. exact Hl1.
Qed.

Section BuildMore.
Context `{UnicodeTables}.

Lemma BuildEpisode_fields (path root : string) (f : file_data) (h : heap) (info : file_info) :
  fd_stat f = Some info ->
  exists e h', BuildEpisode path root f h = inr (e, h') /\
    ID e = match Rel root path with Some r => r | None => Base path end /\
    RelativePath e = match Rel root path with Some r => r | None => Base path end /\
    Filename e = Base path /\ FilesizeBytes e = Size info /\
    Title e = (if String.eqb (fst (fst (fst (readTags h f)))) ""
               then TrimSuffix (Base path) (Ext path) else fst (fst (fst (readTags h f)))) /\
    Artist e = snd (fst (fst (readTags h f))) /\ Album e = snd (fst (readTags h f)) /\
    snd (readTags h f) ⊆ h'.
Proof.
  intros Hs. unfold BuildEpisode. rewrite Hs.
  destruct (readTags h f) as [[[t ar] al] h1] eqn:Er. simpl.
  assert (G : forall x : option loc * option loc * heap,
            x = (if EqualFold (Ext path) ".mp3" then
                   match computeMP3Duration f with
                   | Some dur =>
                       if PrimFloat.ltb fzero dur then
                         let '(ld, h) := alloc h1 (CFloat dur) in
                         let bitrate := bitrate_of (Size info) dur in
                         if 0 <? bitrate then
                           let '(lb, h) := alloc h (CInt bitrate) in (Some ld, Some lb, h)
                         else (Some ld, None, h)
                       else (None, None, h1)
                   | None => (None, None, h1)
                   end
                 else (None, None, h1)) -> h1 ⊆ snd x).
  { intros x ->. destruct (EqualFold (Ext path) ".mp3"); [| reflexivity].
    destruct (computeMP3Duration f) as [dur |]; [| reflexivity].
    destruct (PrimFloat.ltb fzero dur); [| reflexivity].
    pose proof (alloc_subseteq h1 (CFloat dur)) as S1.
    destruct (alloc h1 (CFloat dur)) as [ld h2]. simpl in S1. cbv zeta.
    destruct (0 <? bitrate_of (Size info) dur); [| exact S1].
    pose proof (alloc_subseteq h2 (CInt (bitrate_of (Size info) dur))) as S2.
    destruct (alloc h2 _) as [lb h3]. simpl in *. etransitivity; eassumption. }
  specialize (G _ eq_refl).
  destruct (if EqualFold (Ext path) ".mp3" then _ else _) as [[dp bp] h2]. simpl in G.
  eexists _, _. split; [reflexivity |]. simpl. repeat split; assumption.
Qed.

End BuildMore.

Lemma drop_slashes_head (r : list N) (c : N) (r' : list N) :
  drop_slashes r = c :: r' -> N.eqb c slash = false.
Proof.
  induction r as [| x r IH]; simpl; [discriminate |].
  destruct (N.eqb x slash) eqn:E; [exact IH | intros [= <- _]; exact E].
Qed.

Lemma string_of_bytes_nil (l : list N) : string_of_bytes l = "" -> l = [].
Proof. destruct l; [reflexivity | discriminate]. Qed.

Lemma Base_nonempty (path : string) : Base path <> "".
Proof.
  unfold Base. destruct (bytes_of path) as [| c b]; [intros [=] |].
  match goal with |- context [drop_slashes ?r] => destruct (drop_slashes r) as [| x r'] eqn:E end;
    [intros [=] |].
  apply drop_slashes_head in E. simpl. rewrite E.
  intros Hs. apply string_of_bytes_nil in Hs. apply (f_equal (@List.length N)) in Hs.
  rewrite ?length_app, ?length_rev in Hs. simpl in Hs. lia.
Qed.

Lemma is_prefix_app (p s : list N) : is_prefix p s = true -> exists r, s = p ++ r.
Proof.
  revert s. induction p as [| x p IH]; intros s; simpl; [exists s; reflexivity |].
  destruct s as [| y s]; [discriminate |].
  intros [Hx Hp]%andb_prop. apply N.eqb_eq in Hx as ->. destruct (IH s Hp) as [r ->]. eauto.
Qed.

Lemma is_prefix_refl (p : list N) : is_prefix p p = true.
Proof. induction p as [| x p IH]; simpl; [reflexivity |]. now rewrite N.eqb_refl. Qed.

Lemma TrimSuffix_empty (s x : string) : s <> "" -> TrimSuffix s x = "" <-> s = x.
Proof.
  intros Hs. unfold TrimSuffix.
  destruct (is_prefix (rev (bytes_of x)) (rev (bytes_of s))) eqn:E.
  - apply is_prefix_app in E as [r Er].
    assert (Hl : List.length (bytes_of s) = (List.length r + List.length (bytes_of x))%nat).
    { rewrite <- length_rev, Er, length_app, !length_rev. lia. }
    split.
    + intros Ht. apply string_of_bytes_nil in Ht.
      assert (Hr : r = []).
      { destruct r as [| c r]; [reflexivity |]. exfalso.
        assert (Hlen := f_equal (@List.length N) Ht). rewrite length_firstn in Hlen. simpl in Hl, Hlen. lia. }
      subst r. rewrite app_nil_r in Er. apply bytes_of_inj. rewrite <- (rev_involutive (bytes_of s)), Er.
      apply rev_involutive.
    + intros ->. replace (List.length (bytes_of x) - List.length (bytes_of x))%nat with 0%nat by lia.
      reflexivity.
  - split; [intros E0; contradiction |]. intros ->. rewrite is_prefix_refl in E. discriminate.
Qed.


(** X10: a built record's title is empty exactly when the file has no non-blank title tag and its base name is its extension (a file named like ".wav"). *)
Theorem BuildEpisode_title `{UnicodeTables} (path root : string) (f : file_data) (h : heap) e h' :
  BuildEpisode path root f h = inr (e, h') ->
  (Title e = "" <->
   match raw_tags f with Some (t, _, _) => TrimSpace t = "" | None => True end /\
   Base path = Ext path).
Proof.
  intros Hb. destruct (BuildEpisode_inv path root f h e h' Hb) as (info & Hs & _).
  destruct (BuildEpisode_fields path root f h info Hs)
    as (e0 & h0 & E & _ & _ & _ & _ & Ht & _).
  rewrite Hb in E. injection E as <- <-. rewrite Ht.
  assert (Htitle : fst (fst (fst (readTags h f))) =
                   match raw_tags f with Some (t, _, _) => TrimSpace t | None => "" end).
  { destruct (readTags_spec h f) as [_ R]. destruct (raw_tags f) as [[[t ar] al] |].
    - destruct (readTags h f) as [[[t' a] b] h1]. simpl. exact (proj1 R).
    - rewrite R. reflexivity. }
  rewrite Htitle. pose proof (TrimSuffix_empty (Base path) (Ext path) (Base_nonempty path)) as HT.
  destruct (raw_tags f) as [[[t ar] al] |].
  - destruct (String.eqb (TrimSpace t) "") eqn:Et.
    + apply String.eqb_eq in Et. rewrite HT. tauto.
    + apply String.eqb_neq in Et. tauto.
  - simpl. rewrite HT. tauto.
Qed.

(** X11: a built record points to its artist and album only when the trimmed tag is not blank, each at a new location holding the trimmed value, and never at the same location; an untagged file has neither. *)
Theorem BuildEpisode_tags `{UnicodeTables} (path root : string) (f : file_data) (h : heap) e h' :
  BuildEpisode path root f h = inr (e, h') ->
  match raw_tags f with
  | Some (_, ar, al) =>
      match Artist e with
      | Some p => TrimSpace ar <> "" /\ (p ∉ dom h) /\ h' !! p = Some (CString (TrimSpace ar))
      | None => TrimSpace ar = ""
      end /\
      match Album e with
      | Some p => TrimSpace al <> "" /\ (p ∉ dom h) /\ h' !! p = Some (CString (TrimSpace al)) /\
                  Artist e <> Some p
      | None => TrimSpace al = ""
      end
  | None => Artist e = None /\ Album e = None
  end.
Proof.
  intros Hb. destruct (BuildEpisode_inv path root f h e h' Hb) as (info & Hs & _).
  destruct (BuildEpisode_fields path root f h info Hs)
    as (e0 & h0 & E & _ & _ & _ & _ & _ & Ha & Hal & Hsub).
  rewrite Hb in E. injection E as <- <-. rewrite Ha, Hal.
  destruct (readTags_spec h f) as [_ R]. revert Hsub R.
  destruct (readTags h f) as [[[t' a] b] h1]. simpl. intros Hsub R.
  destruct (raw_tags f) as [[[t ar] al] |].
  - destruct R as (_ & Ra & Rb). split.
    + destruct a as [p |]; [| exact Ra]. destruct Ra as (? & ? & Hl).
      split; [assumption |]. split; [assumption |]. eapply lookup_weaken; eassumption.
    + destruct b as [p |]; [| exact Rb]. destruct Rb as (? & ? & Hl & ?).
      split; [assumption |]. split; [assumption |]. split; [eapply lookup_weaken; eassumption | assumption].
  - injection R as -> -> ->. split; reflexivity.
Qed.



Section CatalogFacts.
Context `{UnicodeTables}.

Lemma walkDir_refresh_fn (l : Library.Library) (d : entry) :
  forall path eps h, exists new h',
    walkDir (Library.refresh_fn l) path d (eps, h) = ((eps ++ new, h'), WalkNil) /\
    map catalog_key new = expected_keys l path d.
Proof.
  induction d as [n f | n ds re Hds] using entry_ind'; intros path.
  - intros eps h. unfold expected_keys. simpl. rewrite app_nil_r.
    destruct (Library.isAllowed l path) eqn:Ha; simpl.
    + destruct (fd_stat f) as [info |] eqn:Hs.
      * destruct (BuildEpisode_fields path (Library.root l) f h info Hs)
          as (e & h' & E & _ & Hrel & Hfn & Hsz & _).
        rewrite E. exists [e], h'. split; [reflexivity |].
        simpl. unfold catalog_key. rewrite Hrel, Hfn, Hsz. reflexivity.
      * assert (E : BuildEpisode path (Library.root l) f h = inl StatError)
          by (unfold BuildEpisode; rewrite Hs; reflexivity).
        rewrite E. exists [], h. split; [now rewrite app_nil_r | reflexivity].
    + exists [], h. split; [now rewrite app_nil_r | reflexivity].
  - assert (Hloop : forall eps h,
      exists new h',
      (fix loop (ds0 : list entry) (st1 : list Episode * heap) {struct ds0} :
          (list Episode * heap) * walk_result :=
        match ds0 with
        | [] => (st1, WalkNil)
        | d1 :: ds' =>
            match walkDir (Library.refresh_fn l) (Join path (entry_name d1)) d1 st1 with
            | (st2, WalkNil) => loop ds' st2
            | (st2, SkipDir) => (st2, WalkNil)
            | (st2, r0) => (st2, r0)
            end
        end) ds (eps, h) = ((eps ++ new, h'), WalkNil) /\
      map catalog_key new = expected_keys l path (DirE n ds re)).
    { unfold expected_keys. simpl. clear re.
      induction Hds as [| d1 ds' Hd1 _ IH]; intros eps h; simpl.
      - exists [], h. split; [now rewrite app_nil_r | reflexivity].
      - destruct (Hd1 (Join path (entry_name d1)) eps h) as (new1 & h1 & E1 & K1).
        rewrite E1. destruct (IH (eps ++ new1) h1) as (new2 & h2 & E2 & K2).
        rewrite E2. exists (new1 ++ new2), h2. split; [now rewrite app_assoc |].
        rewrite map_app, K1, K2, flat_map_app. reflexivity. }
    intros eps h. destruct (Hloop eps h) as (new & h' & E & K). exists new, h'. split; [| exact K].
    destruct re; simpl; exact E.
Qed.

(** X13: a successful refresh keeps the root and the allowed extensions and publishes, up to order, one record per allowed regular file that can be stat'ed, with its relative path, base name and size. *)
Theorem refresh_catalog (l : Library.Library) (fs : io_error + entry) (h : heap) l' h' :
  Library.refresh l fs h = inr (l', h') ->
  Library.root l' = Library.root l /\ Library.allowed l' = Library.allowed l /\
  Permutation (map catalog_key (Caller.published l' h'))
              (match fs with inl _ => [] | inr d => expected_keys l (Library.root l) d end).
Proof.
  unfold Library.refresh, Library.collect.
  assert (Hw : exists new h1, WalkDir (Library.refresh_fn l) (Library.root l) fs ([], h) =
                 ((new, h1), WalkNil) /\
                 map catalog_key new = match fs with inl _ => [] | inr d => expected_keys l (Library.root l) d end).
  { unfold WalkDir. destruct fs as [e | d].
    - exists [], h. split; reflexivity.
    - destruct (walkDir_refresh_fn l d (Library.root l) [] h) as (new & h1 & E & K).
      rewrite E. exists new, h1. split; [reflexivity | exact K]. }
  destruct Hw as (new & h1 & E & K). rewrite E. simpl.
  pose proof (alloc_lookup h1 (CEpisodes (SliceStable Library.episode_less new))) as Hl.
  destruct (alloc h1 (CEpisodes (SliceStable Library.episode_less new))) as [a h2]. simpl in Hl.
  intros [= <- <-]. simpl. split; [reflexivity |]. split; [reflexivity |].
  unfold Caller.published. simpl. rewrite lookup_insert_eq, <- K.
  apply Permutation_map, SliceStable_perm.
Qed.

End CatalogFacts.

Lemma After_iff (t u : time) :
  Server.After t u = true <-> t_sec u < t_sec t \/ (t_sec t = t_sec u /\ t_nsec u < t_nsec t).
Proof.
  unfold Server.After. rewrite orb_true_iff, andb_true_iff, Z.ltb_lt, Z.eqb_eq, Z.ltb_lt. tauto.
Qed.

Lemma After_false_iff (t u : time) :
  Server.After t u = false <-> ~ (t_sec u < t_sec t \/ (t_sec t = t_sec u /\ t_nsec u < t_nsec t)).
Proof. rewrite <- After_iff. destruct (Server.After t u); split; congruence || tauto. Qed.

Lemma Equal_iff (t u : time) :
  Server.Equal t u = true <-> t_sec t = t_sec u /\ t_nsec t = t_nsec u.
Proof. unfold Server.Equal. rewrite andb_true_iff, !Z.eqb_eq. tauto. Qed.

Lemma Equal_false_iff (t u : time) :
  Server.Equal t u = false <-> ~ (t_sec t = t_sec u /\ t_nsec t = t_nsec u).
Proof. rewrite <- Equal_iff. destruct (Server.Equal t u); split; congruence || tauto. Qed.

Ltac time_lia :=
  repeat match goal with
         | H : Server.After _ _ = true |- _ => apply After_iff in H
         | H : Server.After _ _ = false |- _ => apply After_false_iff in H
         | H : Server.Equal _ _ = true |- _ => apply Equal_iff in H
         | H : Server.Equal _ _ = false |- _ => apply Equal_false_iff in H
         | |- Server.After _ _ = false => apply After_false_iff
         | |- Server.After _ _ = true => apply After_iff
         | |- Server.Equal _ _ = false => apply Equal_false_iff
         | |- Server.Equal _ _ = true => apply Equal_iff
         end; simpl in *; lia.

Section FeedFacts.
Context `{UnicodeTables} `{Server.MimeTable}.

Lemma feed_less_asym (a b : Episode) :
  Server.feed_less a b = true -> Server.feed_less b a = false.
Proof.
  unfold Server.feed_less.
  destruct (Server.Equal (ModifiedAt a) (ModifiedAt b)) eqn:E.
  - assert (E' : Server.Equal (ModifiedAt b) (ModifiedAt a) = true) by time_lia.
    rewrite E'. apply str_ltb_asym.
  - assert (E' : Server.Equal (ModifiedAt b) (ModifiedAt a) = false) by time_lia.
    rewrite E'. intros Ha. time_lia.
Qed.

Lemma Sorted_weaken {A : Type} (R R' : A -> A -> Prop) (l : list A) :
  (forall a b, R a b -> R' a b) -> Sorted R l -> Sorted R' l.
Proof.
  intros Himp Hs. induction Hs as [| x l Hl IH Hhd]; constructor; [exact IH |].
  destruct Hhd; constructor. apply Himp. assumption.
Qed.

(** X14: the feed's items are those of a permutation of the episodes, newest first, equal times in descending ID order. *)
Theorem feed_items_order (author : string) (h : heap) (eps : list Episode) :
  exists sorted, Server.feed_items author h eps = map (Server.make_item author h) sorted /\
    Permutation sorted eps /\ Sorted feed_order sorted.
Proof.
  exists (SliceStable Server.feed_less eps). split; [reflexivity |].
  split; [apply SliceStable_perm |].
  eapply Sorted_weaken; [| apply (SliceStable_sorted _ feed_less_asym)].
  intros a b Hab. unfold not_less, Server.feed_less in Hab. unfold feed_order.
  destruct (Server.Equal (ModifiedAt b) (ModifiedAt a)) eqn:E.
  - split; [time_lia |]. intros _. exact Hab.
  - split; [exact Hab |]. intros E'. exfalso. time_lia.
Qed.

Lemma IsZero_UTC (t : time) : Server.IsZero (UTC t) = Server.IsZero t.
Proof. reflexivity. Qed.

Lemma After_UTC_l (t u : time) : Server.After (UTC t) u = Server.After t u.
Proof. reflexivity. Qed.

Lemma After_UTC_r (t u : time) : Server.After t (UTC u) = Server.After t u.
Proof. reflexivity. Qed.

Lemma lb_fold (l : list Episode) (lb : time) :
  let r := fold_left lb_step l lb in
  (Server.IsZero lb = true /\ (forall e, In e l -> Server.IsZero (ModifiedAt e) = true) /\ r = lb) \/
  (Server.IsZero r = false /\
   (r = lb \/ exists e, In e l /\ Server.IsZero (ModifiedAt e) = false /\ r = UTC (ModifiedAt e)) /\
   (Server.IsZero lb = false -> Server.After lb r = false) /\
   (forall e, In e l -> Server.IsZero (ModifiedAt e) = false -> Server.After (ModifiedAt e) r = false)).
Proof.
  revert lb. induction l as [| e l IH]; intros lb r; simpl in r.
  - destruct (Server.IsZero lb) eqn:Z.
    + left. split; [reflexivity |]. split; [intros ? [] | reflexivity].
    + right. split; [exact Z |]. split; [left; reflexivity |].
      split; [intros _; unfold r; time_lia | intros ? []].
  - specialize (IH (lb_step lb e)). fold r in IH.
    unfold lb_step in IH.
    destruct (Server.IsZero (ModifiedAt e)) eqn:Ze; destruct (Server.IsZero lb) eqn:Zl;
      rewrite ?Ze, ?Zl in IH; cbn [negb andb orb] in IH.
    + (* both zero: lb kept *)
      destruct IH as [(_ & Hall & Hr) | (Zr & Hor & Hlb & Hall)].
      * left. split; [reflexivity |]. split; [| exact Hr].
        intros x [<- | Hx]; [exact Ze | apply Hall, Hx].
      * right. split; [exact Zr |].
        split; [destruct Hor as [-> | (x & Hx & ?)]; [left; reflexivity | right; exists x; split; [right; exact Hx | assumption]] |].
        split; [intros Hc; congruence |].
        intros x [<- | Hx] Zx; [congruence | apply Hall; assumption].
    + destruct IH as [(Z' & _) | (Zr & Hor & Hlb & Hall)]; [congruence |].
      right. split; [exact Zr |].
      split; [destruct Hor as [-> | (x & Hx & ?)]; [left; reflexivity | right; exists x; split; [right; exact Hx | assumption]] |].
      split; [intros _; apply Hlb; first [exact Zl | reflexivity] |].
      intros x [<- | Hx] Zx; [congruence | apply Hall; assumption].
    + (* e nonzero, lb zero: updated *)
      destruct IH as [(Z' & _) | (Zr & Hor & Hlb & Hall)]; [rewrite IsZero_UTC in Z'; congruence |].
      right. split; [exact Zr |].
      split; [destruct Hor as [Hr | (x & Hx & ?)]; [right; exists e; split; [left; reflexivity | split; [first [exact Ze | reflexivity] | exact Hr]] | right; exists x; split; [right; exact Hx | assumption]] |].
      split; [intros Hc; congruence |].
      intros x [<- | Hx] Zx; [| apply Hall; assumption].
      rewrite <- After_UTC_l. apply Hlb. rewrite IsZero_UTC. exact Ze.
    + destruct (Server.After (ModifiedAt e) lb) eqn:Ha.
      * destruct IH as [(Z' & _) | (Zr & Hor & Hlb & Hall)]; [rewrite IsZero_UTC in Z'; congruence |].
        right. split; [exact Zr |].
        split; [destruct Hor as [Hr | (x & Hx & ?)]; [right; exists e; split; [left; reflexivity | split; [first [exact Ze | reflexivity] | exact Hr]] | right; exists x; split; [right; exact Hx | assumption]] |].
        specialize (Hlb ltac:(rewrite IsZero_UTC; exact Ze)). rewrite After_UTC_l in Hlb.
        split; [intros _; time_lia |].
        intros x [<- | Hx] Zx; [exact Hlb | apply Hall; assumption].
      * destruct IH as [(Z' & _) | (Zr & Hor & Hlb & Hall)]; [congruence |].
        right. split; [exact Zr |].
        split; [destruct Hor as [-> | (x & Hx & ?)]; [left; reflexivity | right; exists x; split; [right; exact Hx | assumption]] |].
        specialize (Hlb ltac:(first [exact Zl | reflexivity])).
        split; [intros _; exact Hlb |].
        intros x [<- | Hx] Zx; [time_lia | apply Hall; assumption].
Qed.

(** X15: the feed's lastBuildDate is the current time when no episode has a modification time, and otherwise the latest modification time of an episode. *)
Theorem lastBuild_latest (now : time) (eps : list Episode) :
  ((forall e, In e eps -> Server.IsZero (ModifiedAt e) = true) ->
     Server.lastBuild now eps = UTC now) /\
  ((exists e, In e eps /\ Server.IsZero (ModifiedAt e) = false) ->
     exists e, In e eps /\ Server.IsZero (ModifiedAt e) = false /\
       Server.lastBuild now eps = UTC (ModifiedAt e) /\
       forall e', In e' eps -> Server.IsZero (ModifiedAt e') = false ->
         Server.After (ModifiedAt e') (ModifiedAt e) = false).
Proof.
  unfold Server.lastBuild. fold lb_step.
  destruct (lb_fold eps Server.zero_time) as [(_ & Hall & ->) | (Zr & Hor & _ & Hall)].
  - split; [intros _; reflexivity |].
    intros (e & He & Ze). rewrite (Hall e He) in Ze. discriminate.
  - rewrite Zr. destruct Hor as [Hr | (e & He & Ze & Hr)]; [rewrite Hr in Zr; discriminate |].
    split.
    + intros Hz. rewrite (Hz e He) in Ze. discriminate.
    + intros _. exists e. split; [exact He |]. split; [exact Ze |]. split; [exact Hr |].
      intros e' He' Ze'. specialize (Hall e' He' Ze'). rewrite Hr, After_UTC_r in Hall. exact Hall.
Qed.

(** X16: [mimeTypeForFilename] never returns the empty string; a name without extension gets application/octet-stream and a type known to [mime.TypeByExtension] wins. *)
Theorem mimeType_fallbacks (name : string) :
  Server.mimeTypeForFilename name <> "" /\
  (ToLower (Ext name) = "" -> Server.mimeTypeForFilename name = "application/octet-stream") /\
  (ToLower (Ext name) <> "" -> Server.TypeByExtension (ToLower (Ext name)) <> "" ->
     Server.mimeTypeForFilename name = Server.TypeByExtension (ToLower (Ext name))).
Proof.
  unfold Server.mimeTypeForFilename.
  destruct (String.eqb (ToLower (Ext name)) "") eqn:E; simpl negb; cbn iota.
  - apply String.eqb_eq in E. split; [discriminate |]. split; [reflexivity |].
    intros; contradiction.
  - apply String.eqb_neq in E.
    destruct (String.eqb (Server.TypeByExtension (ToLower (Ext name))) "") eqn:T; simpl negb; cbn iota.
    + apply String.eqb_eq in T. split.
      * destruct (List.find _ _) as [[k v] |] eqn:F; [| discriminate].
        apply find_some in F as [Hin _]. simpl in Hin |- *.
        repeat destruct Hin as [Hin | Hin]; try (injection Hin as <- <-; discriminate); contradiction.
      * split; [intros; contradiction |]. intros _ ?; contradiction.
    + apply String.eqb_neq in T. split; [exact T |]. split; [intros; contradiction |].
      reflexivity.
Qed.

End FeedFacts.

(** X2: a token file written as lines joined by newlines (no line holding a newline) accepts exactly the trimmed, non-empty forms of those lines. *)
Theorem tokens_of_lines (lines : list string) (s : TokenStore.state) (t : string) :
  lines <> [] -> Forall (fun l => ~ In 10%N (bytes_of l)) lines ->
  TokenStore.IsValidToken (fst (TokenStore.refresh (TokenStore.ReadOk (String.concat nl lines)) s)) t = true <->
  TrimSpace t <> "" /\ exists line, In line lines /\ TrimSpace line = TrimSpace t.
Proof.
  intros Hne Hnl. rewrite token_file_parse, Split_lines_concat by assumption. reflexivity.
Qed.

Lemma tokens_of_lines_witness :
  ["alpha"; " beta "; ""] <> [] /\ Forall (fun l => ~ In 10%N (bytes_of l)) ["alpha"; " beta "; ""] /\
  TokenStore.IsValidToken
    (fst (TokenStore.refresh (TokenStore.ReadOk (String.concat nl ["alpha"; " beta "; ""])) (TokenStore.mkState ∅)))
    "beta" = true.
Proof.
  assert (Hne : ["alpha"; " beta "; ""] <> []) by discriminate.
  assert (Hnl : Forall (fun l => ~ In 10%N (bytes_of l)) ["alpha"; " beta "; ""]).
  { repeat constructor; vm_compute; intros H; repeat destruct H as [H | H]; discriminate || exact H. }
  split; [exact Hne |]. split; [exact Hnl |].
  apply (tokens_of_lines _ _ _ Hne Hnl). split; [vm_compute; discriminate |].
  exists " beta ". split; [right; left; reflexivity | vm_compute; reflexivity].
Defined.

Lemma BuildEpisode_title_witness :
  match dotwav_episode with inr (e, _) => Title e = "" | inl _ => False end.
Proof.
  destruct dotwav_episode as [err | [e h']] eqn:Hb; [vm_compute in Hb; discriminate |].
  apply (BuildEpisode_title "/srv/audio/.wav" "/srv/audio" (wav_file 1 0) ∅ e h' Hb).
  split; vm_compute; reflexivity.
Defined.

Lemma BuildEpisode_tags_witness :
  match tagged_episode with
  | inr (e, h') => match Artist e with
                   | Some p => h' !! p = Some (CString "Ann")
                   | None => False
                   end /\ Album e = None
  | inl _ => False
  end.
Proof.
  destruct tagged_episode as [err | [e h']] eqn:Hb; [vm_compute in Hb; discriminate |].
  pose proof (BuildEpisode_tags "/srv/audio/talk.wav" "/srv/audio" tagged_file ∅ e h' Hb) as T.
  change (raw_tags tagged_file) with (Some (" Talk ", " Ann ", " ")) in T. cbv iota beta in T.
  destruct T as [Ta Tb]. split.
  - destruct (Artist e) as [p |]; [| vm_compute in Ta; discriminate].
    destruct Ta as (_ & _ & Hl). rewrite Hl. vm_compute. reflexivity.
  - destruct (Album e) as [p |]; [| reflexivity].
    destruct Tb as (Hn & _). exfalso. apply Hn. vm_compute. reflexivity.
Defined.

Lemma refresh_catalog_witness :
  match Library.refresh (empty_library [".wav"]) (inr nested_tree) ∅ with
  | inr (l', h') => Permutation (map catalog_key (Caller.published l' h'))
                      [("a/x.wav", "x.wav", 5); ("a.wav", "a.wav", 5)]
  | inl _ => False
  end.
Proof.
  destruct (Library.refresh (empty_library [".wav"]) (inr nested_tree) ∅) as [err | [l' h']] eqn:Hr;
    [vm_compute in Hr; discriminate |].
  destruct (refresh_catalog _ _ _ l' h' Hr) as (_ & _ & P). rewrite P.
  vm_compute. reflexivity.
Defined.
